(** * Typelist, tuple and variant of Cpp-Templates-2ed

    A shallow embedding of [src/typelist.hpp], [src/tuple.cpp] and of the
    variant of the metaprogramming chapter, followed by the properties of
    the three components.

    Conventions of the embedding.
    - A pack [typelist<Ts...>] is a [list] of its elements; the element type
      [T] stands for C++ types (or, for [std::index_sequence], for the
      [std::size_t] values of the sequence).
    - A metafunction that has no [::type] for some argument (no
      specialization gives one, or the selected specialization is empty)
      returns [None]: the instantiation is rejected by the compiler.
    - The [bool = is_empty_v<List>] dispatch together with [front_t] and
      [pop_front_t] of a non-empty list is written as a [match] on the list.
    - A [tuple<Head, Tail...>] is the list of its slot values; the functions
      that construct tuples also return the element constructions they
      perform.
    - A [variant<Types...>] is the state of its [variant_storage] base; its
      member functions are state transformers that return, throw or have no
      outcome (ill-formed call, undefined behaviour, failed [assert]). *)

From Stdlib Require Import List Arith Bool Lia ZArith String Ascii.
From Stdlib Require Import Permutation Sorted.
From Stdlib Require Import PrimFloat Uint63.
Import ListNotations.

Set Implicit Arguments.

(* ================================================================== *)
(** ** typelist.hpp *)
(* ================================================================== *)

Module Typelist.

Section Algebra.

(** The elements of a typelist. *)
Variable T : Type.

(** [struct front<typelist<Head, Tail...>> { using type = Head; }]; on
    [typelist<>] only the primary template (written for [Cons] lists, with
    [type = List::head]) is left, and [typelist<>] has no such member. *)
Definition front (l : list T) : option T :=
  match l with
  | [] => None
  | Head :: _ => Some Head
  end.

(** [struct pop_front<typelist<Head, Tail...>>]. *)
Definition pop_front (l : list T) : option (list T) :=
  match l with
  | [] => None
  | _ :: Tail => Some Tail
  end.

(** [struct push_front<typelist<Elements...>, NewElement>]. *)
Definition push_front (l : list T) (NewElement : T) : list T :=
  NewElement :: l.

(** [nth_element<List, N> : nth_element<pop_front_t<List>, N - 1>] and
    [nth_element<List, 0> : front<List>]. *)
Fixpoint nth_element (l : list T) (N : nat) : option T :=
  match N with
  | 0 => front l
  | S N' =>
      match pop_front l with
      | Some l' => nth_element l' N'
      | None => None
      end
  end.

(** [is_empty<typelist<>>::value == true], [false] otherwise. *)
Definition is_empty (l : list T) : bool :=
  match l with
  | [] => true
  | _ :: _ => false
  end.

(** [find_index_of<List, T, N, Empty>]: the specialization for an empty
    list has no base class, hence no [type]; [std::is_same_v] is the
    parameter [is_same]. *)
Fixpoint find_index_of (is_same : T -> T -> bool) (l : list T) (t : T)
    (N : nat) : option nat :=
  match l with
  | [] => None
  | Head :: Tail =>
      if is_same Head t then Some N
      else find_index_of is_same Tail t (N + 1)
  end.

(** [push_back_impl<List, NewElement, bool>], the generic strategy that
    only uses front, pop_front and push_front. *)
Fixpoint push_back_impl (l : list T) (NewElement : T) : list T :=
  match l with
  | [] => push_front l NewElement
  | head :: tail =>
      let new_tail := push_back_impl tail NewElement in
      push_front new_tail head
  end.

(** [struct push_back : push_back_impl<List, NewElement> {}]. *)
Definition push_back (l : list T) (NewElement : T) : list T :=
  push_back_impl l NewElement.

(** The pack specializations
    [push_back<std::index_sequence<Values...>, integral_constant<New>>]
    and [push_back<tuple<Types...>, Element>]:
    [Values..., New]. *)
Definition push_back_pack (l : list T) (NewElement : T) : list T :=
  l ++ [NewElement].

(** [reverse<List, Empty>]; the [push_back] it names is resolved by
    specialization on the kind of list, which is the parameter [pb]. *)
Fixpoint reverse_with (pb : list T -> T -> list T) (l : list T) : list T :=
  match l with
  | [] => l
  | head :: tail => pb (reverse_with pb tail) head
  end.

(** [reverse_t] on a [typelist]. *)
Definition reverse (l : list T) : list T := reverse_with push_back l.

(** [reverse_t] on a [std::index_sequence] or a [tuple]. *)
Definition reverse_pack (l : list T) : list T :=
  reverse_with push_back_pack l.

(** [pop_back]: [reverse_t<pop_front_t<reverse_t<List>>>]. *)
Definition pop_back (l : list T) : option (list T) :=
  match pop_front (reverse l) with
  | Some l' => Some (reverse l')
  | None => None
  end.

(** Modelled from the spec: the source has no length metafunction; the
    length of a typelist is the size of its pack, [sizeof...(Elements)]. *)
Definition length (l : list T) : nat := List.length l.

(** [accumulate<List, MetaFun, Init>]: a left fold. *)
Fixpoint accumulate (l : list T) (A : Type) (MetaFun : A -> T -> A)
    (Init : A) : A :=
  match l with
  | [] => Init
  | head :: tail => accumulate tail MetaFun (MetaFun Init head)
  end.

(** [insert_sorted<List, Element, Compare, Empty>]. [new_tail] is chosen
    between [type_identity<List>] and the recursive instantiation before
    its [::type] is taken, so only the chosen one is instantiated. *)
Fixpoint insert_sorted (Compare : T -> T -> bool) (l : list T)
    (Element : T) : list T :=
  match l with
  | [] => push_front l Element
  | head :: tail =>
      let new_tail :=
        if Compare Element head then l
        else insert_sorted Compare tail Element in
      let new_head := if Compare Element head then Element else head in
      push_front new_tail new_head
  end.

(** [insertion_sort<List, Compare, Empty>]. *)
Fixpoint insertion_sort (Compare : T -> T -> bool) (l : list T) : list T :=
  match l with
  | [] => l
  | head :: tail =>
      insert_sorted Compare (insertion_sort Compare tail) head
  end.

(** [largest_type<List, Empty>]; [size_of] is [sizeof] and [char_t] the
    type [char] of the base case. *)
Fixpoint largest_type (size_of : T -> nat) (char_t : T) (l : list T) : T :=
  match l with
  | [] => char_t
  | contender :: tail =>
      let best := largest_type size_of char_t tail in
      if size_of best <=? size_of contender then contender else best
  end.

(** [select<Types, std::index_sequence<Indices...>>]:
    [typelist<nth_element_t<Types, Indices>...>]. *)
Fixpoint select (Types : list T) (Indices : list nat) : option (list T) :=
  match Indices with
  | [] => Some []
  | Index :: rest =>
      match nth_element Types Index, select Types rest with
      | Some t, Some ts => Some (t :: ts)
      | _, _ => None
      end
  end.

(** A comparison that is a strict total order on the elements, as
    [less] is on integral constants. *)
Definition strict_total_order (Compare : T -> T -> bool) : Prop :=
  (forall a, Compare a a = false) /\
  (forall a b c, Compare a b = true -> Compare b c = true ->
                 Compare a c = true) /\
  (forall a b, a <> b -> Compare a b = true \/ Compare b a = true).

(** A comparison that is a total order in the usual sense, as [<=] is:
    reflexive, antisymmetric, transitive and total. *)
Definition total_order (Compare : T -> T -> bool) : Prop :=
  (forall a, Compare a a = true) /\
  (forall a b, Compare a b = true -> Compare b a = true -> a = b) /\
  (forall a b c, Compare a b = true -> Compare b c = true ->
                 Compare a c = true) /\
  (forall a b, Compare a b = true \/ Compare b a = true).

(** A comparison that never holds both ways, as every strict order. *)
Definition asymmetric (Compare : T -> T -> bool) : Prop :=
  forall a b, Compare a b = true -> Compare b a = false.

(** [later] may stand right after [earlier] in a sorted list. *)
Definition may_follow (Compare : T -> T -> bool) (earlier later : T)
    : Prop :=
  Compare later earlier = false.

(** Every adjacent pair [(earlier, later)] of [l] satisfies
    [!Compare(later, earlier)]. *)
Definition adjacent_pairs_ordered (Compare : T -> T -> bool) (l : list T)
    : Prop :=
  forall before earlier later after,
    l = before ++ earlier :: later :: after ->
    Compare later earlier = false.

End Algebra.

(** The static assertions of [jc::test], with types named and given
    their [sizeof] on an LP64 platform. *)
Inductive cpp_type := t_bool | t_char | t_short | t_int | t_double | t_int_ptr.

Definition size_of (t : cpp_type) : nat :=
  match t with
  | t_bool => 1
  | t_char => 1
  | t_short => 2
  | t_int => 4
  | t_double => 8
  | t_int_ptr => 8
  end.

Definition cpp_type_eqb (a b : cpp_type) : bool :=
  match a, b with
  | t_bool, t_bool | t_char, t_char | t_short, t_short
  | t_int, t_int | t_double, t_double | t_int_ptr, t_int_ptr => true
  | _, _ => false
  end.

(** [smaller<T, U>::value = sizeof(T) < sizeof(U)]. *)
Definition smaller (a b : cpp_type) : bool := size_of a <? size_of b.

(** [less<integral_constant<T, M>, integral_constant<T, N>>::value = M < N]. *)
Definition less (M N : nat) : bool := M <? N.

Definition T3 : list cpp_type :=
  push_back (push_front (push_front [] t_char) t_double) t_int_ptr.

End Typelist.

(* ================================================================== *)
(** ** tuple.cpp *)
(* ================================================================== *)

Module Tuple.

Section Generic.

(** The values of the element types. *)
Variable elt : Type.

(** [tuple<Head, Tail...>] is a head element and the tuple of the tail;
    [tuple<>] is empty. *)
Definition tuple := list elt.

(** [tuple<Head, Tail...>::get_head]; [tuple<>] has no such member. *)
Definition get_head (t : tuple) : option elt :=
  match t with
  | [] => None
  | head :: _ => Some head
  end.

(** [tuple<Head, Tail...>::get_tail]. *)
Definition get_tail (t : tuple) : option tuple :=
  match t with
  | [] => None
  | _ :: tail => Some tail
  end.

(** [tuple_get<N>::apply]: [N] steps to the tail, then the head. The
    result is a reference to the slot: no element is copied. *)
Fixpoint tuple_get (N : nat) (t : tuple) : option elt :=
  match N with
  | 0 => get_head t
  | S N' =>
      match get_tail t with
      | Some tail => tuple_get N' tail
      | None => None
      end
  end.

(** [get<N>(t)]. *)
Definition get (N : nat) (t : tuple) : option elt := tuple_get N t.

(** A computation that copy- or move-constructs elements: its result and
    the elements constructed, in the order of construction. Returning a
    tuple by value constructs nothing (the returned prvalue initializes its
    destination). *)
Definition counted (A : Type) : Type := (A * list elt)%type.

Definition ret (A : Type) (a : A) : counted A := (a, []).

Definition bind (A B : Type) (m : counted A) (k : A -> counted B)
    : counted B :=
  let (a, c1) := m in
  let (b, c2) := k a in
  (b, c1 ++ c2).

(** [tuple_elt(U&& rhs) : value_(std::forward<U>(rhs))] (or [T(...)] for
    the derived storage): one construction of the slot from [rhs]. *)
Definition tuple_elt (rhs : elt) : counted elt := (rhs, [rhs]).

(** [tuple(VHead&& head, VTail&&... tail) :
       HeadElt(std::forward<VHead>(head)),
       TailElt(std::forward<VTail>(tail)...)]; [tuple<>] has nothing to
    construct. *)
Fixpoint tuple_ctor (args : list elt) : counted tuple :=
  match args with
  | [] => ret []
  | head :: tail =>
      bind (tuple_elt head) (fun h =>
      bind (tuple_ctor tail) (fun tl =>
      ret (h :: tl)))
  end.

(** [make_tuple(args...)]:
    [tuple<std::decay_t<Types>...>(std::forward<Types>(args)...)]. *)
Definition make_tuple (args : list elt) : counted tuple := tuple_ctor args.

(** The pack expansion [get<Indices>(t)...]: a reference per index, and no
    instantiation when an index is out of range. *)
Fixpoint get_pack (t : tuple) (Indices : list nat) : option (list elt) :=
  match Indices with
  | [] => Some []
  | Index :: rest =>
      match get Index t, get_pack t rest with
      | Some x, Some xs => Some (x :: xs)
      | _, _ => None
      end
  end.

(** [select_tuple(t, std::index_sequence<Indices...>)]. *)
Definition select_tuple (t : tuple) (Indices : list nat)
    : option (counted tuple) :=
  match get_pack t Indices with
  | Some refs => Some (make_tuple refs)
  | None => None
  end.

(** [std::index_sequence_for<Types...>]: [0, 1, ..., sizeof...(Types)-1]. *)
Definition index_sequence_for (t : tuple) : list nat :=
  seq 0 (List.length t).

(** [reverse_tuple(t)]:
    [select_tuple(t, reverse_t<std::index_sequence_for<Types...>>{})]. *)
Definition reverse_tuple (t : tuple) : option (counted tuple) :=
  select_tuple t (Typelist.reverse_pack (index_sequence_for t)).

(** The tuple a computation returns, when it is well-formed. *)
Definition result_of (A : Type) (r : option (counted A)) : option A :=
  match r with
  | Some (a, _) => Some a
  | None => None
  end.

(** The element constructions a computation performs. *)
Definition copies_of (A : Type) (r : option (counted A)) : list elt :=
  match r with
  | Some (_, c) => c
  | None => []
  end.

(** [==] between two slots: [None] when the two slot types have no
    [operator==]. *)
Variable elt_eq : elt -> elt -> option bool.

(** [operator==(const tuple<>&, const tuple<>&)] and
    [operator==(const tuple<Head1, Tail1...>&, const tuple<Head2, Tail2...>&)],
    the latter enabled when [sizeof...(Tail1) == sizeof...(Tail2)]. Both
    operands of [&&] are instantiated whatever the head comparison gives;
    [None] when no overload is viable. *)
Fixpoint tuple_eq (lhs rhs : tuple) : option bool :=
  match lhs, rhs with
  | [], [] => Some true
  | head1 :: tail1, head2 :: tail2 =>
      if List.length tail1 =? List.length tail2 then
        match elt_eq head1 head2, tuple_eq tail1 tail2 with
        | Some b1, Some b2 => Some (b1 && b2)
        | _, _ => None
        end
      else None
  | _, _ => None
  end.

(** [os << x] for a slot value. *)
Variable show : elt -> string.

(** [print_tuple(os, t, is_first)]; the stream is the text written so far. *)
Fixpoint print_tuple (os : string) (t : tuple) (is_first : bool) : string :=
  match t with
  | [] => (os ++ (if is_first then "(" else ")"))%string
  | head :: tail =>
      print_tuple
        (os ++ (if is_first then "(" else ", ") ++ show head)%string
        tail false
  end.

(** [operator<<(os, t)]: [print_tuple(os, t)] with the default
    [is_first = true]. *)
Definition insert_into_stream (os : string) (t : tuple) : string :=
  print_tuple os t true.

(** The functions below that return a tuple built by the copy constructor
    or by the two-argument constructors are given by the tuple they
    return; their element constructions are not tracked.

    [pop_front_tuple(t)]: a copy of [t.get_tail()]; [tuple<>] has neither
    [get_tail] nor a [pop_front_t]. *)
Definition pop_front_tuple (t : tuple) : option tuple := get_tail t.

(** [push_front_tuple(t, v)]: [push_front_t<tuple<Types...>, V>{v, t}]. *)
Definition push_front_tuple (t : tuple) (v : elt) : tuple := v :: t.

(** [push_back_tuple(const tuple<>&, v)] is [tuple<V>{v}], and
    [push_back_tuple(const tuple<Head, Tail...>& t, v)] is
    [{t.get_head(), push_back_tuple(t.get_tail(), v)}]. *)
Fixpoint push_back_tuple (t : tuple) (v : elt) : tuple :=
  match t with
  | [] => [v]
  | head :: tail => head :: push_back_tuple tail v
  end.

(** [pop_back_tuple(t)]:
    [reverse_tuple(pop_front_tuple(reverse_tuple(t)))]. *)
Definition pop_back_tuple (t : tuple) : option tuple :=
  match result_of (reverse_tuple t) with
  | Some r =>
      match pop_front_tuple r with
      | Some p => result_of (reverse_tuple p)
      | None => None
      end
  | None => None
  end.

(** [replicated_index_list<I, N, std::index_sequence<Indices...>>]: the
    case [N = 0] gives the list collected, the other appends [I] and
    continues with [N - 1]. *)
Fixpoint replicated_index_list (Index N : nat) (IndexList : list nat)
    : list nat :=
  match N with
  | 0 => IndexList
  | S N' => replicated_index_list Index N' (IndexList ++ [Index])
  end.

(** [splat_tuple<I, N>(t)]:
    [select_tuple(t, replicated_index_list_t<I, N>{})]. *)
Definition splat_tuple (Index N : nat) (t : tuple) : option (counted tuple) :=
  select_tuple t (replicated_index_list Index N []).

(** [apply_impl(f, t, std::index_sequence<Indices...>)]:
    [std::invoke(f, get<Indices>(t)...)]; the callable receives the slots
    as its argument list. *)
Definition apply_impl (R : Type) (f : list elt -> R) (t : tuple)
    (Indices : list nat) : option R :=
  match get_pack t Indices with
  | Some args => Some (f args)
  | None => None
  end.

(** [apply(f, t)]: [apply_impl] with [std::index_sequence_for<Types...>]. *)
Definition apply (R : Type) (f : list elt -> R) (t : tuple) : option R :=
  apply_impl f t (index_sequence_for t).

(** [tuple<Head, Tail...>::operator[](std::integral_constant<T, Index>)]:
    [get<Index>] of the tuple itself. *)
Definition subscript (t : tuple) (Index : nat) : option elt := get Index t.

(** The types of the slots, which [sort_tuple] compares. *)
Variable ty : Type.
Variable type_of : elt -> ty.

(** [metafun_of_nth_element<List, F>::Apply<integral_constant<M>,
    integral_constant<N>>]: [F<nth_element_t<List, M>,
    nth_element_t<List, N>>]. It is only instantiated on positions of
    [List]; the value given here outside of them is never used. *)
Definition metafun_of_nth_element (List : list ty) (F : ty -> ty -> bool)
    (M N : nat) : bool :=
  match Typelist.nth_element List M, Typelist.nth_element List N with
  | Some a, Some b => F a b
  | _, _ => false
  end.

(** [sort_tuple<Compare>(t)]: [select_tuple] on the positions of [t]
    sorted by [insertion_sort_t] with the comparison of the slot types. *)
Definition sort_tuple (Compare : ty -> ty -> bool) (t : tuple)
    : option (counted tuple) :=
  select_tuple t
    (Typelist.insertion_sort
       (metafun_of_nth_element (map type_of t) Compare)
       (index_sequence_for t)).

End Generic.

(** *** The element types of the tests

    The values of [int], [double], [const char*] and [std::string]. A
    [const char*] is the address it holds together with the characters it
    points to. *)
Inductive value : Type :=
| VInt (n : Z)
| VDouble (d : float)
| VCharPtr (address : Z) (pointee : string)
| VString (s : string).

(** The conversion of an [int] to [double] (exact: every [int] is a
    binary64 number). *)
Definition int_to_double (n : Z) : float :=
  if (n <? 0)%Z then PrimFloat.opp (PrimFloat.of_uint63 (Uint63.of_Z (- n)))
  else PrimFloat.of_uint63 (Uint63.of_Z n).

(** The built-in [==] of arithmetic types (after the usual arithmetic
    conversions) and of pointers, and [operator==] of [std::string] with a
    string or a character pointer; an arithmetic value has no [==] with a
    pointer or a string. *)
Definition value_eq (a b : value) : option bool :=
  match a, b with
  | VInt m, VInt n => Some (m =? n)%Z
  | VDouble x, VDouble y => Some (PrimFloat.eqb x y)
  | VInt m, VDouble y => Some (PrimFloat.eqb (int_to_double m) y)
  | VDouble x, VInt n => Some (PrimFloat.eqb x (int_to_double n))
  | VCharPtr p _, VCharPtr q _ => Some (p =? q)%Z
  | VString s, VString s' => Some (String.eqb s s')
  | VString s, VCharPtr _ s' => Some (String.eqb s s')
  | VCharPtr _ s, VString s' => Some (String.eqb s s')
  | _, _ => None
  end.

(** [get<N>(t) == y]. *)
Definition slot_equals (N : nat) (t : tuple value) (y : value)
    : option bool :=
  match get N t with
  | Some x => value_eq x y
  | None => None
  end.

(** [std::strcmp(p, q) == 0] for two character pointers. *)
Definition strcmp_is_0 (a b : value) : option bool :=
  match a, b with
  | VCharPtr _ s, VCharPtr _ s' => Some (String.eqb s s')
  | _, _ => None
  end.

(** [std::strcmp(get<N>(t), q) == 0]. *)
Definition slot_strcmp_is_0 (N : nat) (t : tuple value) (q : value)
    : option bool :=
  match get N t with
  | Some x => strcmp_is_0 x q
  | None => None
  end.

(** [reverse_tuple(reverse_tuple(t)) == t]. *)
Definition reversed_twice_equals (t : tuple value) : option bool :=
  match result_of (reverse_tuple t) with
  | Some r =>
      match result_of (reverse_tuple r) with
      | Some rr => tuple_eq value_eq rr t
      | None => None
      end
  | None => None
  end.

(** The literal [3.14]: the binary64 number nearest to it. *)
Definition double_3_14 : float := 0x1.91eb851eb851fp+1%float.

(** [auto t = jc::make_tuple(42, 3.14, "downdemo")] of [test_make_tuple],
    a [tuple<int, double, const char*>]; [p] is the address of the string
    literal. *)
Definition t_make_tuple (p : Z) : tuple value :=
  fst (make_tuple [VInt 42; VDouble double_3_14; VCharPtr p "downdemo"]).

(** [jc::tuple<int, double, std::string> t{42, 3.14, "downdemo"}] of
    [test_typelist]. *)
Definition t_typelist : tuple value :=
  [VInt 42; VDouble double_3_14; VString "downdemo"].

(** *** The literal operator [_c]

    An [int] computation in a constant expression, for an [int] of 32
    bits: a result outside of the range of [int] is undefined, so the
    expression has no value. *)
Definition int_checked (z : Z) : option Z :=
  if ((- 2 ^ 31 <=? z) && (z <=? 2 ^ 31 - 1))%Z then Some z else None.

(** [constexpr int to_int(char c)]: a hexadecimal letter or a decimal
    digit; for another character the [assert] fails. *)
Definition to_int (c : ascii) : option Z :=
  let n := Z.of_nat (nat_of_ascii c) in
  if ((65 <=? n) && (n <=? 70))%Z then Some (n - 65 + 10)%Z
  else if ((97 <=? n) && (n <=? 102))%Z then Some (n - 97 + 10)%Z
  else if ((48 <=? n) && (n <=? 57))%Z then Some (n - 48)%Z
  else None.

(** The base and the offset [parse_int] reads off the prefix of the
    [N] characters: [0x], [0X], [0b], [0B], or [0] for an octal literal;
    the prefix is only looked at when [N > 2]. *)
Definition prefix_of (arr : list ascii) : Z * nat :=
  match arr with
  | c0 :: c1 :: _ :: _ =>
      if Ascii.eqb c0 "0" then
        if Ascii.eqb c1 "x" || Ascii.eqb c1 "X" then (16%Z, 2)
        else if Ascii.eqb c1 "b" || Ascii.eqb c1 "B" then (2%Z, 2)
        else (8%Z, 1)
      else (10%Z, 0)
  | _ => (10%Z, 0)
  end.

(** The loop of [parse_int] over [arr[N - 1 - i]] for [i < N - offset],
    that is over the characters after the prefix from the last to the
    first; [chars] are these characters in the order of the loop. *)
Fixpoint parse_loop (base : Z) (chars : list ascii) (res multiplier : Z)
    : option Z :=
  match chars with
  | [] => Some res
  | c :: rest =>
      if Ascii.eqb c "'" then parse_loop base rest res multiplier
      else
        match to_int c with
        | Some d =>
            match int_checked (d * multiplier) with
            | Some p =>
                match int_checked (res + p) with
                | Some res' =>
                    match int_checked (multiplier * base) with
                    | Some multiplier' =>
                        parse_loop base rest res' multiplier'
                    | None => None
                    end
                | None => None
                end
            | None => None
            end
        | None => None
        end
  end.

(** [constexpr int parse_int(const char (&arr)[N])]. *)
Definition parse_int (arr : list ascii) : option Z :=
  let (base, offset) := prefix_of arr in
  parse_loop base (rev (skipn offset arr)) 0 1.

(** The literal operator [_c]:
    [std::integral_constant<int, parse_int<sizeof...(cs)>({cs...})>], on
    the characters of the literal. *)
Definition literal_c (cs : string) : option Z :=
  parse_int (list_ascii_of_string cs).

(** The digits of a literal: its characters after the prefix without
    the digit separators, most significant first. *)
Definition digits_of (offset : nat) (arr : list ascii) : list ascii :=
  filter (fun c => negb (Ascii.eqb c "'")) (skipn offset arr).

(** The number a string of digits denotes in a base. *)
Definition digits_value (base : Z) (digits : list ascii) : Z :=
  fold_left
    (fun acc c => (acc * base + match to_int c with
                                | Some d => d
                                | None => 0
                                end)%Z)
    digits 0%Z.

(** Every character is a digit of the base. *)
Definition digits_in_base (base : Z) (digits : list ascii) : Prop :=
  Forall (fun c => exists d, to_int c = Some d /\ (0 <= d < base)%Z) digits.

(** An element type instrumented to count its constructions: every object
    carries the number of the object it was first made as. *)
Definition instrumented : Type := nat.

(** A five-element tuple of the instrumented type. *)
Definition five_instrumented : tuple instrumented := [10; 11; 12; 13; 14].

End Tuple.

(* ================================================================== *)
(** ** variant (chapter 13) *)
(* ================================================================== *)

Module VariantModel.

(** The two overloads of each constructor and assignment of
    [variant_choice]: from [const T&] and from [T&&]. *)
Inductive value_category := lvalue | rvalue.

(** Why an operation has no outcome: the call is rejected by the compiler,
    its behaviour is undefined, or an [assert] fails. *)
Inductive fault := ill_formed | undefined_behaviour | assertion_failure.

Section Semantics.

(** The alternative types, with [std::is_same]. *)
Variable ty : Type.
Variable ty_eq_dec : forall a b : ty, {a = b} + {a <> b}.

(** The values of the alternative types and the exceptions their
    operations throw. *)
Variable val : Type.
Variable E : Type.

(** [T(value)] and [T(std::move(value))]: the object constructed, or the
    exception thrown. *)
Variable construct : value_category -> ty -> val -> E + val.

(** [*p = value] and [*p = std::move(value)] on a live [T]: the object
    afterwards, and the exception when the assignment throws. *)
Variable assign : value_category -> ty -> val -> val -> val * option E.

(** [T()]. *)
Variable default_construct : ty -> E + val.

(** The alternatives [Types...] of [variant<Types...>]. *)
Variable Types : list ty.

Definition is_same (a b : ty) : bool :=
  if ty_eq_dec a b then true else false.

(** [struct empty_variant : std::exception {}] and the exceptions of the
    alternatives. *)
Inductive exn := empty_variant | thrown (e : E).

(** What happens to the storage, in order. *)
Inductive event :=
| destroyed (T : ty) (x : val)
| constructed (T : ty) (x : val)
| assigned (T : ty) (x : val)
| discriminator_set (d : nat).

(** [variant_storage<Types...>]: the object alive in [buffer_] (if any)
    with its type, and [discriminator_]; [events] records the history. *)
Record variant := mk_variant {
  buffer_ : option (ty * val);
  discriminator_ : nat;
  events : list event
}.

(** The storage of a variant under construction:
    [unsigned char discriminator_ = 0]. *)
Definition fresh : variant :=
  {| buffer_ := None; discriminator_ := 0; events := [] |}.

(** An operation on a variant returns, throws, or has no outcome. *)
Inductive outcome (A : Type) :=
| returns (a : A) (v : variant)
| throws (e : exn) (v : variant)
| stuck (w : fault).

Arguments throws {A} e v.
Arguments stuck {A} w.

Definition M (A : Type) : Type := variant -> outcome A.

Definition ret (A : Type) (a : A) : M A := fun v => returns a v.

Definition bind (A B : Type) (m : M A) (k : A -> M B) : M B :=
  fun v =>
    match m v with
    | returns a v' => k a v'
    | throws e v' => throws e v'
    | stuck w => stuck w
    end.

Definition throw (A : Type) (e : exn) : M A := fun v => throws e v.

Definition fail (A : Type) (w : fault) : M A := fun _ => stuck w.

Notation "x <- m ;; k" := (bind m (fun x => k))
  (at level 61, m at next level, right associativity).
Notation "m ;; k" := (bind m (fun _ => k))
  (at level 61, right associativity).

(** [get_discriminator()]. *)
Definition get_discriminator : M nat :=
  fun v => returns (discriminator_ v) v.

(** [set_discriminator(unsigned char d)]: the argument, an [unsigned], is
    converted to [unsigned char]. *)
Definition set_discriminator (d : nat) : M unit :=
  fun v =>
    returns tt
      {| buffer_ := buffer_ v;
         discriminator_ := d mod 256;
         events := events v ++ [discriminator_set (d mod 256)] |}.

(** [new (get_raw_buffer()) T(value)]: when the constructor throws no
    object is alive in the buffer. *)
Definition placement_new (vc : value_category) (T : ty) (value : val)
    : M unit :=
  fun v =>
    match construct vc T value with
    | inr x =>
        returns tt
          {| buffer_ := Some (T, x);
             discriminator_ := discriminator_ v;
             events := events v ++ [constructed T x] |}
    | inl e =>
        throws (thrown e)
          {| buffer_ := None;
             discriminator_ := discriminator_ v;
             events := events v |}
    end.

(** [get_buffer_as<T>()]: the object of type [T] alive in the buffer;
    using the pointer when there is none is undefined. *)
Definition get_buffer_as (T : ty) : M val :=
  fun v =>
    match buffer_ v with
    | Some (T', x) =>
        if ty_eq_dec T' T then returns x v else stuck undefined_behaviour
    | None => stuck undefined_behaviour
    end.

(** [get_buffer_as<T>()->~T()]. *)
Definition pseudo_destructor (T : ty) : M unit :=
  x <- get_buffer_as T ;;
  fun v =>
    returns tt
      {| buffer_ := None;
         discriminator_ := discriminator_ v;
         events := events v ++ [destroyed T x] |}.

(** [*get_buffer_as<T>() = value]. *)
Definition assign_in_place (vc : value_category) (T : ty) (value : val)
    : M unit :=
  x <- get_buffer_as T ;;
  fun v =>
    let (x', e) := assign vc T x value in
    let v' := {| buffer_ := Some (T, x');
                 discriminator_ := discriminator_ v;
                 events := events v ++ [assigned T x'] |} in
    match e with
    | None => returns tt v'
    | Some e => throws (thrown e) v'
    end.

(** [variant_choice<T, Types...>::Discriminator]:
    [find_index_of_t<typelist<Types...>, T>::value + 1], which does not
    exist when [T] is not among [Types]. It is an [unsigned]; a pack of
    template arguments stays far below [2^32] elements, so the conversion
    of the [std::size_t] sum is exact. *)
Definition Discriminator (T : ty) : option nat :=
  match Typelist.find_index_of is_same Types T 0 with
  | Some i => Some (i + 1)
  | None => None
  end.

(** A member of the base [variant_choice<T, Types...>], whose body refers
    to its [Discriminator]. *)
Definition choice (A : Type) (T : ty) (member : nat -> M A) : M A :=
  match Discriminator T with
  | Some D => member D
  | None => fail A ill_formed
  end.

(** [variant_choice(const T& value)] and [variant_choice(T&& value)]. *)
Definition choice_ctor (vc : value_category) (T : ty) (value : val)
    : M unit :=
  choice T (fun D =>
    placement_new vc T value ;;
    set_discriminator D).

(** [bool variant_choice::destroy()]. *)
Definition choice_destroy (T : ty) : M bool :=
  choice T (fun D =>
    d <- get_discriminator ;;
    if d =? D then
      pseudo_destructor T ;;
      ret true
    else ret false).

(** The fold [(variant_choice<Types, Types...>::destroy(), ...)] over a
    pack of alternatives. *)
Fixpoint destroy_choices (ts : list ty) : M unit :=
  match ts with
  | [] => ret tt
  | T :: rest =>
      choice_destroy T ;;
      destroy_choices rest
  end.

(** [void variant::destroy()]. *)
Definition destroy : M unit :=
  destroy_choices Types ;;
  set_discriminator 0.

(** [~variant() { destroy(); }]. *)
Definition destructor : M unit := destroy.

(** [Derived& operator=(const T& value)] and
    [Derived& operator=(T&& value)] of [variant_choice<T, Types...>].
    [value] is an object of its own, outside of the variant assigned to;
    [choice_assign_ref] below has the parameter as the reference it is. *)
Definition choice_assign (vc : value_category) (T : ty) (value : val)
    : M unit :=
  choice T (fun D =>
    d <- get_discriminator ;;
    if d =? D then assign_in_place vc T value
    else
      destroy ;;
      placement_new vc T value ;;
      set_discriminator D).

(** What the parameter [const T& value] or [T&& value] of [operator=] is
    bound to: an object of its own, or a [T] within the object alive in
    the buffer of the variant assigned to (that object or a part of it, as
    in [v = v.get<U>().member]), reached from the held object by [part]. *)
Inductive reference :=
| outside (value : val)
| inside (part : val -> val).

(** A read through the parameter. The object a reference into the variant
    refers to lives as long as the held object; a read after the end of
    its lifetime is undefined. *)
Definition read (r : reference) : M val :=
  fun v =>
    match r with
    | outside value => returns value v
    | inside part =>
        match buffer_ v with
        | Some (_, x) => returns (part x) v
        | None => stuck undefined_behaviour
        end
    end.

(** [operator=(const T& value)] and [operator=(T&& value)] with the
    parameter as a reference: [value] is read where the body uses it, in
    the second branch after [destroy()]. *)
Definition choice_assign_ref (vc : value_category) (T : ty) (r : reference)
    : M unit :=
  choice T (fun D =>
    d <- get_discriminator ;;
    if d =? D then
      value <- read r ;;
      assign_in_place vc T value
    else
      destroy ;;
      value <- read r ;;
      placement_new vc T value ;;
      set_discriminator D).

(** [bool empty() const]. *)
Definition empty : M bool :=
  d <- get_discriminator ;;
  ret (d =? 0).

(** [template <typename T> bool is() const] ([is] is reserved). *)
Definition is_ (T : ty) : M bool :=
  choice T (fun D =>
    d <- get_discriminator ;;
    ret (d =? D)).

(** [template <typename T> T& get()] and its [const&] and [&&] overloads;
    [assert] is the one of a build without [NDEBUG]. *)
Definition get (T : ty) : M val :=
  e <- empty ;;
  if e then throw val empty_variant
  else
    b <- is_ T ;;
    if b then get_buffer_as T else fail val assertion_failure.

(** [variant_visit_impl<R>(variant, vis, typelist<Head, Tail...>)]; the
    visitor returns its result or throws. It does not change the value it
    is handed, as every visitor of the [const&] overload, which receives a
    [const T&]; [variant_visit_impl_ref] below is for visitors that do. *)
Fixpoint variant_visit_impl (R : Type) (vis : ty -> val -> E + R)
    (Head : ty) (Tail : list ty) : M R :=
  b <- is_ Head ;;
  if b then
    x <- get Head ;;
    match vis Head x with
    | inr r => ret r
    | inl e => throw R (thrown e)
    end
  else
    match Tail with
    | Head' :: Tail' => variant_visit_impl vis Head' Tail'
    | [] => throw R empty_variant
    end.

(** [visit(Visitor&& vis)]: [variant_visit_impl] on [typelist<Types...>],
    which needs a first alternative. *)
Definition visit (R : Type) (vis : ty -> val -> E + R) : M R :=
  match Types with
  | Head :: Tail => variant_visit_impl vis Head Tail
  | [] => fail R ill_formed
  end.

(** The inherited constructors [variant(const T&)] and [variant(T&&)]:
    the storage is initialized first, then the chosen base. *)
Definition variant_from (vc : value_category) (T : ty) (value : val)
    : outcome unit :=
  choice_ctor vc T value fresh.

(** [variant() { *this = front_t<typelist<Types...>>(); }]: the temporary
    is assigned through [operator=(T&&)] of the first alternative. *)
Definition variant_default : outcome unit :=
  match Typelist.front Types with
  | Some T =>
      match default_construct T with
      | inr x => choice_assign rvalue T x fresh
      | inl e => throws (thrown e) fresh
      end
  | None => stuck ill_formed
  end.

(** The object alive in the buffer as a visitor leaves it. *)
Definition write_buffer (T : ty) (x : val) : M unit :=
  fun v =>
    returns tt
      {| buffer_ := Some (T, x);
         discriminator_ := discriminator_ v;
         events := events v |}.

(** [variant_visit_impl] for the [&] and [&&] overloads of [visit]: the
    visitor is handed a reference ([T&] or [T&&]) to the object alive in
    the buffer and may change it or move from it. [vis Head x] is the
    object as the visitor leaves it, with the visitor's result or
    exception; the visitor acts on the object it is handed, not on the
    variant around it. *)
Fixpoint variant_visit_impl_ref (R : Type)
    (vis : ty -> val -> val * (E + R)) (Head : ty) (Tail : list ty) : M R :=
  b <- is_ Head ;;
  if b then
    x <- get Head ;;
    write_buffer Head (fst (vis Head x)) ;;
    match snd (vis Head x) with
    | inr r => ret r
    | inl e => throw R (thrown e)
    end
  else
    match Tail with
    | Head' :: Tail' => variant_visit_impl_ref vis Head' Tail'
    | [] => throw R empty_variant
    end.

(** [visit(Visitor&& vis) &] and [visit(Visitor&& vis) &&]. *)
Definition visit_ref (R : Type) (vis : ty -> val -> val * (E + R)) : M R :=
  match Types with
  | Head :: Tail => variant_visit_impl_ref vis Head Tail
  | [] => fail R ill_formed
  end.

(** [rhs.visit(vis)] with the visitor of the copy operations, the
    generic lambda whose body assigns its argument to the variant under
    construction or assigned to. That assignment is the visitor's only
    effect, so the visit is the search of the live alternative of [rhs]
    followed by the assignment of its value through [operator=(const T&)]. *)
Definition visit_and_assign (rhs : variant) : M unit :=
  fun this =>
    match visit (fun T x => inr (T, x)) rhs with
    | returns (T, x) _ => choice_assign lvalue T x this
    | throws e _ => throws e this
    | stuck w => stuck w
    end.

(** [variant(const variant& rhs)]: nothing is done when [rhs.empty()]. *)
Definition variant_copy_ctor (rhs : variant) : outcome unit :=
  if discriminator_ rhs =? 0 then returns tt fresh
  else visit_and_assign rhs fresh.

(** [variant& operator=(const variant& rhs)]: [destroy()] when
    [rhs.empty()]. *)
Definition variant_copy_assign (rhs : variant) : M unit :=
  if discriminator_ rhs =? 0 then destroy
  else visit_and_assign rhs.

(** [print_impl<V, Head, Tail...>(os, v)] of [jc::test]: the stream is the
    text written so far and [show] is the insertion of a value. *)
Fixpoint print_impl (show : ty -> val -> string) (os : string)
    (Head : ty) (Tail : list ty) : M string :=
  b <- is_ Head ;;
  if b then
    x <- get Head ;;
    ret (os ++ show Head x)%string
  else
    match Tail with
    | Head' :: Tail' => print_impl show os Head' Tail'
    | [] => ret os
    end.

(** [print(os, v)]: [print_impl<variant<Types...>, Types...>(os, v)]. *)
Definition print (show : ty -> val -> string) (os : string) : M string :=
  match Types with
  | Head :: Tail => print_impl show os Head Tail
  | [] => fail string ill_formed
  end.

(** [sizeof] and the type [char]. *)
Variable size_of : ty -> nat.
Variable char_t : ty.

(** The number of bytes of [buffer_]: [sizeof(largest_t)] with
    [largest_t = largest_type_t<typelist<Types...>>]. *)
Definition buffer_size : nat :=
  size_of (Typelist.largest_type size_of char_t Types).

(** The discriminator names the object alive in the buffer, and is 0
    when there is none. *)
Definition consistent (v : variant) : Prop :=
  match buffer_ v with
  | Some (A, _) => Discriminator A = Some (discriminator_ v)
  | None => discriminator_ v = 0
  end.

(** An operation ends, by a return or by an exception, in a consistent
    variant. *)
Definition keeps_consistent (A : Type) (o : outcome A) : Prop :=
  match o with
  | returns _ v' => consistent v'
  | throws _ v' => consistent v'
  | stuck _ => False
  end.

(** The destruction of the object alive in the buffer, if any. *)
Definition live_object_destroyed (v : variant) : list event :=
  match buffer_ v with
  | Some (A, a) => [destroyed A a]
  | None => []
  end.

(** No event of a list is the destruction of an alternative. *)
Definition no_destruction (evs : list event) : Prop :=
  forall T x, ~ In (destroyed T x) evs.

End Semantics.

(** *** The types of the tests

    [jc::variant<int, jc::test::noncopyable>] of [test_noncopyable]:
    copying a [noncopyable], by construction or by assignment, throws
    [copied_noncopyable]; moving one does not. *)
Inductive alt := alt_int | alt_double | alt_string | alt_noncopyable.

Definition alt_eq_dec (a b : alt) : {a = b} + {a <> b}.
Proof. decide equality. Defined.

Inductive test_exn := copied_noncopyable.

Definition test_construct (vc : value_category) (T : alt) (value : Z)
    : test_exn + Z :=
  match T, vc with
  | alt_noncopyable, lvalue => inl copied_noncopyable
  | _, _ => inr value
  end.

Definition test_assign (vc : value_category) (T : alt) (old value : Z)
    : Z * option test_exn :=
  match T, vc with
  | alt_noncopyable, lvalue => (old, Some copied_noncopyable)
  | _, _ => (value, None)
  end.

Definition test_default_construct (T : alt) : test_exn + Z := inr 0%Z.

Definition test_Types : list alt := [alt_int; alt_noncopyable].

(** [jc::variant<int, jc::test::noncopyable> v(42)]. *)
Definition test_v : variant alt Z :=
  {| buffer_ := Some (alt_int, 42%Z);
     discriminator_ := 1;
     events := [constructed alt_int 42%Z; discriminator_set alt Z 1] |}.

(** A variant of 256 alternatives, named by their position, whose
    operations never throw. *)
Definition wide_Types : list nat := seq 0 256.

Definition wide_construct (vc : value_category) (T : nat) (value : Z)
    : Empty_set + Z :=
  inr value.

Definition wide_assign (vc : value_category) (T : nat) (old value : Z)
    : Z * option Empty_set :=
  (value, None).

(** The variant of 256 alternatives constructed from a value of the first
    one. *)
Definition wide_v : variant nat Z :=
  {| buffer_ := Some (0, 1%Z);
     discriminator_ := 1;
     events := [constructed 0 1%Z; discriminator_set nat Z 1] |}.

End VariantModel.

(* ================================================================== *)
(** * Properties *)
(* ================================================================== *)

(** ** Typelist *)

Module TypelistFacts.

Import Typelist.

Section Laws.

Variable T : Type.

Lemma push_back_impl_app (l : list T) (e : T) :
  push_back_impl l e = l ++ [e].
Proof.
  induction l as [|head tail IH]; simpl.
  - reflexivity.
  - unfold push_front. now rewrite IH.
Qed.

Lemma push_back_app (l : list T) (e : T) : push_back l e = l ++ [e].
Proof. apply push_back_impl_app. Qed.

Lemma reverse_with_rev (pb : list T -> T -> list T) :
  (forall l e, pb l e = l ++ [e]) ->
  forall l, reverse_with pb l = rev l.
Proof.
  intros Hpb l. induction l as [|head tail IH]; simpl.
  - reflexivity.
  - now rewrite Hpb, IH.
Qed.

Lemma reverse_rev (l : list T) : reverse l = rev l.
Proof. apply reverse_with_rev, push_back_app. Qed.

Lemma reverse_pack_rev (l : list T) : reverse_pack l = rev l.
Proof. now apply reverse_with_rev. Qed.

Lemma pop_back_removelast (l : list T) (e : T) :
  pop_back (l ++ [e]) = Some l.
Proof.
  unfold pop_back. rewrite reverse_rev, rev_app_distr. simpl.
  now rewrite reverse_rev, rev_involutive.
Qed.

Lemma nth_element_nth_error (l : list T) (N : nat) :
  nth_element l N = nth_error l N.
Proof.
  revert l. induction N as [|N IH]; intros [|head tail]; simpl; auto.
Qed.

Lemma accumulate_push_front_rev (l acc : list T) :
  accumulate l (@push_front T) acc = rev l ++ acc.
Proof.
  revert acc. induction l as [|head tail IH]; intros acc; simpl.
  - reflexivity.
  - rewrite IH. unfold push_front. now rewrite <- app_assoc.
Qed.

(** C6. For every typelist [L] and element [E]:
    [pop_front(push_front(L, E))] is [L], [front(push_front(L, E))] is [E],
    [reverse(reverse(L))] is [L], and the length of [push_back(L, E)] is
    the length of [L] plus one. *)
Theorem typelist_algebra_laws (L : list T) (E : T) :
  pop_front (push_front L E) = Some L /\
  front (push_front L E) = Some E /\
  reverse (reverse L) = L /\
  length (push_back L E) = length L + 1.
Proof.
  repeat split.
  - now rewrite !reverse_rev, rev_involutive.
  - unfold length. rewrite push_back_app. apply length_app.
Qed.

End Laws.

Section Sorting.

Variable T : Type.
Variable Compare : T -> T -> bool.

Lemma insert_sorted_perm (l : list T) (e : T) :
  Permutation (e :: l) (insert_sorted Compare l e).
Proof.
  induction l as [|head tail IH]; simpl; unfold push_front.
  - reflexivity.
  - destruct (Compare e head).
    + reflexivity.
    + rewrite perm_swap. now apply perm_skip.
Qed.

Lemma insertion_sort_perm (l : list T) :
  Permutation l (insertion_sort Compare l).
Proof.
  induction l as [|head tail IH]; simpl.
  - reflexivity.
  - rewrite <- insert_sorted_perm. now apply perm_skip.
Qed.

Hypothesis Compare_asym :
  forall a b, Compare a b = true -> Compare b a = false.

Lemma insert_sorted_HdRel (l : list T) (e a : T) :
  (may_follow Compare) a e -> HdRel (may_follow Compare) a l ->
  HdRel (may_follow Compare) a (insert_sorted Compare l e).
Proof.
  intros Hae Hal. destruct l as [|head tail]; simpl; unfold push_front.
  - now constructor.
  - destruct (Compare e head); constructor; trivial.
    now inversion Hal.
Qed.

Lemma insert_sorted_Sorted (l : list T) (e : T) :
  Sorted (may_follow Compare) l -> Sorted (may_follow Compare) (insert_sorted Compare l e).
Proof.
  induction l as [|head tail IH]; intros Hs; simpl; unfold push_front.
  - repeat constructor.
  - inversion Hs as [|? ? Htail Hhd]; subst.
    destruct (Compare e head) eqn:Hc.
    + constructor; trivial. constructor. now apply Compare_asym.
    + constructor; auto. now apply insert_sorted_HdRel.
Qed.

Lemma insertion_sort_Sorted (l : list T) :
  Sorted (may_follow Compare) (insertion_sort Compare l).
Proof.
  induction l as [|head tail IH]; simpl.
  - constructor.
  - now apply insert_sorted_Sorted.
Qed.

Lemma Sorted_adjacent (l : list T) :
  Sorted (may_follow Compare) l -> adjacent_pairs_ordered Compare l.
Proof.
  intros Hs before. revert l Hs.
  induction before as [|x before IH]; intros l Hs earlier later after ->.
  - inversion Hs as [|? ? _ Hhd]; subst. now inversion Hhd.
  - inversion Hs as [|? ? Htail _]; subst. now apply (IH _ Htail _ _ after).
Qed.

Lemma insertion_sort_adjacent (l : list T) :
  adjacent_pairs_ordered Compare (insertion_sort Compare l).
Proof. apply Sorted_adjacent, insertion_sort_Sorted. Qed.

End Sorting.

Lemma strict_total_order_asym (T : Type) (Compare : T -> T -> bool) :
  strict_total_order Compare ->
  forall a b, Compare a b = true -> Compare b a = false.
Proof.
  intros (Hirr & Htrans & _) a b Hab.
  destruct (Compare b a) eqn:Hba; trivial.
  now rewrite <- (Hirr a), (Htrans a b a Hab Hba).
Qed.

(** C5, as the code has it. For every typelist [L] and every comparison
    [Compare] that is asymmetric ([Compare(a, b)] excludes [Compare(b, a)]:
    every strict order, total or not, such as [less] and [smaller]),
    [insertion_sort(L, Compare)] is a permutation of [L] in which every
    adjacent pair [(earlier, later)] satisfies [!Compare(later, earlier)]. *)
Theorem insertion_sort_correct (T : Type) (Compare : T -> T -> bool)
    (L : list T) :
  asymmetric Compare ->
  Permutation L (insertion_sort Compare L) /\
  adjacent_pairs_ordered Compare (insertion_sort Compare L).
Proof.
  intros Hasym. split.
  - apply insertion_sort_perm.
  - apply insertion_sort_adjacent. exact Hasym.
Qed.

Lemma less_strict_total_order : strict_total_order less.
Proof.
  unfold less. repeat split.
  - intros a. apply Nat.ltb_irrefl.
  - intros a b c. rewrite !Nat.ltb_lt. lia.
  - intros a b Hab. rewrite !Nat.ltb_lt. lia.
Defined.

(** Every strict total order is asymmetric. *)
Lemma strict_total_order_asymmetric (T : Type) (Compare : T -> T -> bool) :
  strict_total_order Compare -> asymmetric Compare.
Proof. exact (@strict_total_order_asym T Compare). Qed.

(** [smaller], which is no total order on types (two types of one size
    compare neither way), is asymmetric. *)
Lemma smaller_asymmetric : asymmetric smaller.
Proof.
  unfold asymmetric, smaller. intros a b.
  rewrite Nat.ltb_lt, Nat.ltb_ge. lia.
Defined.

Lemma insertion_sort_correct_witness :
  asymmetric smaller /\
  Permutation [t_double; t_char; t_int_ptr; t_int]
    (insertion_sort smaller [t_double; t_char; t_int_ptr; t_int]) /\
  adjacent_pairs_ordered smaller
    (insertion_sort smaller [t_double; t_char; t_int_ptr; t_int]).
Proof.
  split.
  - exact smaller_asymmetric.
  - exact (insertion_sort_correct [t_double; t_char; t_int_ptr; t_int]
             smaller_asymmetric).
Defined.

(** [<=] on the values of an index sequence is a total order, and sorting
    two equal values with it leaves an adjacent pair whose later element
    compares before (or equal to) the earlier one. *)
Lemma insertion_sort_total_order_tie :
  total_order Nat.leb /\
  insertion_sort Nat.leb [1; 1] = [1; 1] /\
  Nat.leb 1 1 = true /\
  ~ adjacent_pairs_ordered Nat.leb (insertion_sort Nat.leb [1; 1]).
Proof.
  split; [|split; [reflexivity|split; [reflexivity|]]].
  - repeat split.
    + intros a. apply Nat.leb_refl.
    + intros a b. rewrite !Nat.leb_le. lia.
    + intros a b c. rewrite !Nat.leb_le. lia.
    + intros a b. rewrite !Nat.leb_le. lia.
  - intros H. specialize (H [] 1 1 [] eq_refl). discriminate.
Qed.

Lemma list_eq_nil_dec (A : Type) (l : list A) : {l = []} + {l <> []}.
Proof. destruct l; [now left | now right]. Qed.

Section Largest.

Variable T : Type.
Variable size_of : T -> nat.
Variable char_t : T.

(** [sizeof(char)] is 1 and no type is smaller. *)
Hypothesis size_of_char : size_of char_t = 1.
Hypothesis size_of_pos : forall t, 1 <= size_of t.

Lemma largest_type_bound (l : list T) (t : T) :
  In t l -> size_of t <= size_of (largest_type size_of char_t l).
Proof.
  induction l as [|contender tail IH]; simpl; [easy|].
  intros [<-|Hin];
    destruct (size_of (largest_type size_of char_t tail) <=? size_of contender)
      eqn:Hle;
    try apply Nat.leb_le in Hle; try apply Nat.leb_gt in Hle;
    try specialize (IH Hin); lia.
Qed.

Lemma largest_type_first (l : list T) :
  l <> [] ->
  exists before after,
    l = before ++ largest_type size_of char_t l :: after /\
    forall t, In t before ->
      size_of t < size_of (largest_type size_of char_t l).
Proof.
  induction l as [|contender tail IH]; [easy|]. intros _.
  change (largest_type size_of char_t (contender :: tail))
    with (if size_of (largest_type size_of char_t tail) <=? size_of contender
          then contender else largest_type size_of char_t tail).
  destruct (size_of (largest_type size_of char_t tail) <=? size_of contender)
    eqn:Hle.
  - exists [], tail. split; [reflexivity|]. intros t [].
  - apply Nat.leb_gt in Hle.
    destruct (list_eq_nil_dec tail) as [->|Hne].
    + simpl in Hle. pose proof (size_of_pos contender). lia.
    + destruct (IH Hne) as (before & after & Heq & Hlt).
      exists (contender :: before), after. split.
      * simpl. now rewrite <- Heq.
      * intros t [<-|Hin]; auto.
Qed.

(** C7. For every non-empty typelist [L], [largest_type(L)] is an element
    of [L] of maximal [sizeof], and of the elements of that size it is the
    first in left-to-right order: every element before it is strictly
    smaller. *)
Theorem largest_type_first_maximal (L : list T) :
  L <> [] ->
  let largest := largest_type size_of char_t L in
  (forall t, In t L -> size_of t <= size_of largest) /\
  exists before after,
    L = before ++ largest :: after /\
    forall t, In t before -> size_of t < size_of largest.
Proof.
  intros Hne largest. split.
  - intros t. apply largest_type_bound.
  - now apply largest_type_first.
Qed.

End Largest.

Lemma cpp_size_of_pos (t : cpp_type) : 1 <= Typelist.size_of t.
Proof. destruct t; simpl; lia. Defined.

Lemma largest_type_first_maximal_witness :
  let L := [t_char; t_double; t_int; t_int_ptr] in
  let largest := largest_type Typelist.size_of t_char L in
  L <> [] /\ largest = t_double /\
  (forall t, In t L -> Typelist.size_of t <= Typelist.size_of largest) /\
  exists before after,
    L = before ++ largest :: after /\
    forall t, In t before -> Typelist.size_of t < Typelist.size_of largest.
Proof.
  intros L largest. split; [discriminate|]. split; [reflexivity|].
  apply (@largest_type_first_maximal cpp_type Typelist.size_of t_char
           eq_refl cpp_size_of_pos L).
  discriminate.
Defined.

(** The static assertions of [jc::test] on [T3] and on index sequences. *)
Example T3_is : T3 = [t_double; t_char; t_int_ptr].
Proof. reflexivity. Qed.

Example T3_nth_element : nth_element T3 2 = Some t_int_ptr.
Proof. reflexivity. Qed.

Example T3_find_index_of :
  find_index_of cpp_type_eqb T3 t_int_ptr 0 = Some 2.
Proof. reflexivity. Qed.

Example T3_reverse : reverse T3 = [t_int_ptr; t_char; t_double].
Proof. reflexivity. Qed.

Example T3_pop_back : pop_back T3 = Some [t_double; t_char].
Proof. reflexivity. Qed.

Example T3_largest_type : largest_type Typelist.size_of t_char T3 = t_double.
Proof. reflexivity. Qed.

Example T3_accumulate :
  accumulate T3 (@push_front cpp_type) [] = [t_int_ptr; t_char; t_double].
Proof. reflexivity. Qed.

Example T3_insertion_sort :
  insertion_sort smaller T3 = [t_char; t_int_ptr; t_double].
Proof. reflexivity. Qed.

Example index_sequence_insertion_sort :
  insertion_sort less [2; 3; 0; 1] = [0; 1; 2; 3].
Proof. reflexivity. Qed.

(** With a comparison that holds between equal elements ([<=] instead of
    [<]) a tie is kept in the order of insertion, and the later element
    compares before the earlier one. *)
Example insertion_sort_non_strict_tie :
  insertion_sort Nat.leb [1; 1] = [1; 1] /\ Nat.leb 1 1 = true.
Proof. split; reflexivity. Qed.

(** Insertion sort is not stable: two types of one size change places. *)
Example insertion_sort_not_stable :
  insertion_sort smaller [t_double; t_int_ptr] = [t_int_ptr; t_double].
Proof. reflexivity. Qed.

(** *** Further properties of the typelist algorithms *)

Section Lookup.

Variable T : Type.
Variable is_same : T -> T -> bool.

(** [std::is_same_v] holds of a type and itself only. *)
Hypothesis is_same_spec : forall a b, is_same a b = true <-> a = b.

Lemma find_index_of_found (l : list T) (t : T) (N i : nat) :
  find_index_of is_same l t N = Some i ->
  N <= i /\ nth_element l (i - N) = Some t /\
  forall j, j < i - N -> nth_element l j <> Some t.
Proof.
  revert N. induction l as [|Head Tail IH]; intros N; simpl; [discriminate|].
  destruct (is_same Head t) eqn:Hs.
  - intros [= <-]. apply is_same_spec in Hs. subst.
    rewrite Nat.sub_diag. repeat split; [lia|]. intros j Hj. lia.
  - intros H. apply IH in H as (Hle & Hnth & Hfirst).
    replace (i - N) with (S (i - (N + 1))) by lia.
    repeat split; [lia | exact Hnth |].
    intros [|j] Hj; simpl.
    + intros [= ->].
      assert (is_same t t = true) by now apply is_same_spec. congruence.
    + apply Hfirst. lia.
Qed.

Lemma find_index_of_absent (l : list T) (t : T) (N : nat) :
  find_index_of is_same l t N = None -> ~ In t l.
Proof.
  revert N. induction l as [|Head Tail IH]; intros N; simpl; [easy|].
  destruct (is_same Head t) eqn:Hs; [discriminate|].
  intros H [->|Hin].
  - assert (is_same t t = true) by now apply is_same_spec. congruence.
  - exact (IH _ H Hin).
Qed.

(** X9. [find_index_of<L, T>] is the position of the first occurrence of
    [T] in [L] ([nth_element] at it gives [T] back, and at no smaller
    position), and it has no [type] exactly when [T] does not occur. *)
Theorem find_index_of_first_occurrence (l : list T) (t : T) :
  match find_index_of is_same l t 0 with
  | Some i =>
      nth_element l i = Some t /\
      forall j, j < i -> nth_element l j <> Some t
  | None => ~ In t l
  end.
Proof.
  destruct (find_index_of is_same l t 0) as [i|] eqn:H.
  - apply find_index_of_found in H as (_ & Hnth & Hfirst).
    rewrite Nat.sub_0_r in *. now split.
  - exact (find_index_of_absent l t 0 H).
Qed.

End Lookup.

Lemma find_index_of_first_occurrence_witness :
  find_index_of Nat.eqb [5; 7; 5; 9] 5 0 = Some 0 /\
  match find_index_of Nat.eqb [5; 7; 9; 7] 7 0 with
  | Some i =>
      nth_element [5; 7; 9; 7] i = Some 7 /\
      forall j, j < i -> nth_element [5; 7; 9; 7] j <> Some 7
  | None => ~ In 7 [5; 7; 9; 7]
  end.
Proof.
  split; [reflexivity|].
  exact (find_index_of_first_occurrence Nat.eqb Nat.eqb_eq [5; 7; 9; 7] 7).
Defined.

Section Gathering.

Variable T : Type.

Lemma select_Forall2 (l : list T) (Indices : list nat) (r : list T) :
  select l Indices = Some r <->
  Forall2 (fun i t => nth_element l i = Some t) Indices r.
Proof.
  revert r. induction Indices as [|i rest IH]; intros r; simpl.
  - split.
    + intros [= <-]. constructor.
    + intros H. now inversion H.
  - split.
    + destruct (nth_element l i) as [t|] eqn:Ht; [|discriminate].
      destruct (select l rest) as [ts|]; [|discriminate].
      intros [= <-]. constructor; [exact Ht | now apply IH].
    + intros H. inversion H as [|? t ? ts Ht Hrest]; subst.
      rewrite Ht. apply IH in Hrest. now rewrite Hrest.
Qed.

Lemma select_None (l : list T) (Indices : list nat) :
  select l Indices = None <->
  Exists (fun i => List.length l <= i) Indices.
Proof.
  induction Indices as [|i rest IH]; simpl.
  - split; [discriminate | intros H; inversion H].
  - rewrite nth_element_nth_error.
    destruct (nth_error l i) as [t|] eqn:Ht.
    + destruct (select l rest) as [ts|].
      * split; [discriminate|]. intros H. exfalso.
        inversion H as [? ? Hi|? ? Hrest]; subst.
        -- apply nth_error_None in Hi. congruence.
        -- apply IH in Hrest. discriminate.
      * split; [|reflexivity]. intros _. right. now apply IH.
    + split; [|reflexivity]. intros _. left. now apply nth_error_None.
Qed.

Lemma select_all (before l : list T) :
  select (before ++ l) (seq (List.length before) (List.length l)) = Some l.
Proof.
  revert before. induction l as [|head tail IH]; intros before; simpl.
  - reflexivity.
  - rewrite nth_element_nth_error, nth_error_app2 by lia.
    rewrite Nat.sub_diag. simpl.
    specialize (IH (before ++ [head])).
    rewrite <- app_assoc, length_app, Nat.add_1_r in IH. simpl in IH.
    now rewrite IH.
Qed.

Lemma Forall2_rev (A B : Type) (R : A -> B -> Prop) (l1 : list A)
    (l2 : list B) :
  Forall2 R l1 l2 -> Forall2 R (rev l1) (rev l2).
Proof.
  induction 1 as [|x y l1 l2 Hxy Hrest IH]; simpl.
  - constructor.
  - apply Forall2_app; [exact IH | now repeat constructor].
Qed.

(** X10. [nth_element<L, N>] exists exactly for the positions of [L], and
    [select<L, Indices>] exactly when every index is one: it then lists
    the elements of [L] at the indices, in the order of the indices. The
    positions of [L] in order select [L] itself, and in reverse order the
    reversed list. *)
Theorem select_gathers_by_index (l : list T) (Indices : list nat) :
  (forall N, nth_element l N = None <-> List.length l <= N) /\
  (select l Indices = None <->
   Exists (fun i => List.length l <= i) Indices) /\
  (forall r, select l Indices = Some r <->
             Forall2 (fun i t => nth_element l i = Some t) Indices r) /\
  select l (seq 0 (List.length l)) = Some l /\
  select l (reverse_pack (seq 0 (List.length l))) = Some (reverse l).
Proof.
  split; [|split; [|split; [|split]]].
  - intros N. rewrite nth_element_nth_error. apply nth_error_None.
  - apply select_None.
  - intros r. apply select_Forall2.
  - exact (select_all [] l).
  - rewrite reverse_pack_rev, reverse_rev. apply select_Forall2.
    apply Forall2_rev. apply select_Forall2. exact (select_all [] l).
Qed.

(** X11. [pop_back] removes the last element of a non-empty list and has
    no [type] on the empty list; it undoes [push_back]. *)
Theorem pop_back_removes_last (l : list T) :
  pop_back l = match l with
               | [] => None
               | _ :: _ => Some (removelast l)
               end /\
  forall E, pop_back (push_back l E) = Some l.
Proof.
  split.
  - destruct (list_eq_nil_dec l) as [->|Hne]; [reflexivity|].
    destruct (exists_last Hne) as (l' & e & ->).
    rewrite pop_back_removelast, removelast_last.
    now destruct l'.
  - intros E. rewrite push_back_app. apply pop_back_removelast.
Qed.

(** X12. The three ways the header reverses a list agree: [reverse] with
    the generic [push_back], [reverse] with the pack specialization of
    [push_back], and [accumulate] with [push_front] from the empty list;
    each is the list read backwards. *)
Theorem reverse_strategies_agree (l : list T) :
  reverse l = rev l /\
  reverse_pack l = reverse l /\
  accumulate l (@push_front T) [] = reverse l.
Proof.
  rewrite reverse_rev, reverse_pack_rev, accumulate_push_front_rev.
  now rewrite app_nil_r.
Qed.

Variable Compare : T -> T -> bool.

Lemma insert_sorted_last (l : list T) (e : T) :
  (forall x, In x l -> Compare e x = false) ->
  insert_sorted Compare l e = l ++ [e].
Proof.
  induction l as [|head tail IH]; intros H; simpl; unfold push_front.
  - reflexivity.
  - rewrite (H head (or_introl eq_refl)). f_equal. apply IH.
    intros x Hx. apply H. now right.
Qed.

(** X13. A list that is already strictly ascending (every element
    compares before its successor) is returned unchanged by
    [insertion_sort]. *)
Theorem insertion_sort_ascending_unchanged (l : list T) :
  Sorted (fun earlier later => Compare earlier later = true) l ->
  insertion_sort Compare l = l.
Proof.
  induction 1 as [|head tail Htail IH Hhd]; simpl; [reflexivity|].
  rewrite IH. destruct Hhd as [|next rest Hnext]; simpl; unfold push_front.
  - reflexivity.
  - now rewrite Hnext.
Qed.

(** X14. Elements none of which compares before another (all of them tie)
    come out of [insertion_sort] in the reverse of their order in the
    input: the sort is not stable. *)
Theorem insertion_sort_reverses_ties (l : list T) :
  (forall a b, In a l -> In b l -> Compare a b = false) ->
  insertion_sort Compare l = rev l.
Proof.
  induction l as [|head tail IH]; intros Hties; simpl; [reflexivity|].
  rewrite IH.
  - apply insert_sorted_last. intros x Hx. apply in_rev in Hx.
    apply Hties; [now left | now right].
  - intros a b Ha Hb. apply Hties; now right.
Qed.

(** A sorted list keeps its order when its own head is inserted again. *)
Lemma insert_sorted_head (l : list T) (e : T) :
  (forall a b, Compare a b = false -> Compare b a = false -> a = b) ->
  Sorted (may_follow Compare) (e :: l) ->
  insert_sorted Compare l e = e :: l.
Proof.
  intros Htri. revert e. induction l as [|head tail IH]; intros e Hs; simpl;
    unfold push_front; [reflexivity|].
  destruct (Compare e head) eqn:Hc; [reflexivity|].
  inversion Hs as [|? ? Htail Hhd]; subst.
  inversion Hhd as [|? ? Hfollow]; subst. unfold may_follow in Hfollow.
  assert (e = head) by now apply Htri. subst.
  f_equal. now apply IH.
Qed.

Lemma insertion_sort_sorted_unchanged (l : list T) :
  (forall a b, Compare a b = false -> Compare b a = false -> a = b) ->
  Sorted (may_follow Compare) l ->
  insertion_sort Compare l = l.
Proof.
  intros Htri Hs.
  induction Hs as [|head tail Htail IH Hhd]; simpl; [reflexivity|].
  rewrite IH. apply insert_sorted_head; [exact Htri|].
  now constructor.
Qed.

(** X23. For a comparison that is asymmetric and under which two
    elements that do not compare either way are equal (a strict total
    order), sorting a sorted list changes nothing: [insertion_sort] is
    idempotent. *)
Theorem insertion_sort_idempotent (l : list T) :
  (forall a b, Compare a b = true -> Compare b a = false) ->
  (forall a b, Compare a b = false -> Compare b a = false -> a = b) ->
  insertion_sort Compare (insertion_sort Compare l)
  = insertion_sort Compare l.
Proof.
  intros Hasym Htri.
  apply insertion_sort_sorted_unchanged; [exact Htri|].
  exact (@insertion_sort_Sorted T Compare Hasym l).
Qed.

End Gathering.

Lemma insertion_sort_ascending_unchanged_witness :
  insertion_sort less [1; 2; 5; 8] = [1; 2; 5; 8].
Proof.
  apply (@insertion_sort_ascending_unchanged nat less [1; 2; 5; 8]).
  repeat constructor.
Defined.

Lemma insertion_sort_idempotent_witness :
  insertion_sort less (insertion_sort less [2; 3; 0; 3; 1])
  = insertion_sort less [2; 3; 0; 3; 1].
Proof.
  apply (@insertion_sort_idempotent nat less [2; 3; 0; 3; 1]).
  - unfold less. intros a b. rewrite Nat.ltb_lt, Nat.ltb_ge. lia.
  - unfold less. intros a b. rewrite !Nat.ltb_ge. lia.
Defined.

(** Two [double]s and an [int*], all of one size, sorted by [smaller]. *)
Lemma insertion_sort_reverses_ties_witness :
  insertion_sort smaller [t_double; t_int_ptr; t_double]
  = rev [t_double; t_int_ptr; t_double].
Proof.
  apply (@insertion_sort_reverses_ties cpp_type smaller
           [t_double; t_int_ptr; t_double]).
  intros a b [<-|[<-|[<-|[]]]] [<-|[<-|[<-|[]]]]; reflexivity.
Defined.

End TypelistFacts.

(** ** Tuple *)

Module TupleFacts.

Import Tuple.

Section Gather.

Variable elt : Type.

Lemma get_nth_error (N : nat) (t : tuple elt) : get N t = nth_error t N.
Proof.
  unfold get. revert t.
  induction N as [|N IH]; intros [|head tail]; simpl; auto.
Qed.

Lemma tuple_ctor_copies (args : list elt) : tuple_ctor args = (args, args).
Proof.
  induction args as [|head tail IH]; simpl.
  - reflexivity.
  - rewrite IH. simpl. now rewrite app_nil_r.
Qed.

Lemma get_pack_spec (t : tuple elt) (Indices : list nat) (xs : list elt) :
  get_pack t Indices = Some xs <->
  map (nth_error t) Indices = map Some xs.
Proof.
  revert xs. induction Indices as [|i rest IH]; intros xs; simpl.
  - split.
    + now intros [= <-].
    + destruct xs; [reflexivity | discriminate].
  - rewrite get_nth_error. split.
    + destruct (nth_error t i) as [x|]; [|discriminate].
      destruct (get_pack t rest) as [ys|]; [|discriminate].
      intros [= <-]. simpl. f_equal. now apply IH.
    + destruct xs as [|x xs']; [discriminate|]. simpl.
      intros [= -> Hrest]. apply IH in Hrest. now rewrite Hrest.
Qed.

Lemma nth_error_all_slots (before t : tuple elt) :
  map (nth_error (before ++ t)) (seq (List.length before) (List.length t))
  = map Some t.
Proof.
  revert before. induction t as [|head tail IH]; intros before; simpl.
  - reflexivity.
  - f_equal.
    + rewrite nth_error_app2 by lia. now rewrite Nat.sub_diag.
    + specialize (IH (before ++ [head])).
      rewrite <- app_assoc, length_app, Nat.add_1_r in IH. exact IH.
Qed.

Lemma get_pack_reversed (t : tuple elt) :
  get_pack t (Typelist.reverse_pack (index_sequence_for t)) = Some (rev t).
Proof.
  apply get_pack_spec.
  rewrite TypelistFacts.reverse_pack_rev. unfold index_sequence_for.
  rewrite !map_rev. f_equal. apply (nth_error_all_slots []).
Qed.

Lemma reverse_tuple_spec (t : tuple elt) :
  reverse_tuple t = Some (rev t, rev t).
Proof.
  unfold reverse_tuple, select_tuple, make_tuple.
  now rewrite get_pack_reversed, tuple_ctor_copies.
Qed.

(** C9. For every tuple, [reverse_tuple] is one gather pass: it returns
    the reversed tuple and constructs each element of the source exactly
    once (the constructions are the source's elements, each once, in the
    order of the result), so as many elements are constructed as the tuple
    has. *)
Theorem reverse_tuple_single_gather_pass (t : tuple elt) :
  result_of (reverse_tuple t) = Some (rev t) /\
  copies_of (reverse_tuple t) = rev t /\
  Permutation (copies_of (reverse_tuple t)) t /\
  List.length (copies_of (reverse_tuple t)) = List.length t.
Proof.
  rewrite reverse_tuple_spec. simpl. repeat split.
  - symmetry. apply Permutation_rev.
  - apply length_rev.
Qed.

Variable elt_eq : elt -> elt -> option bool.

Lemma tuple_eq_Forall2 (lhs rhs : tuple elt) :
  tuple_eq elt_eq lhs rhs = Some true <->
  Forall2 (fun x y => elt_eq x y = Some true) lhs rhs.
Proof.
  revert rhs. induction lhs as [|head1 tail1 IH]; intros [|head2 tail2]; simpl.
  - split; [constructor | reflexivity].
  - split; [discriminate | intros H; inversion H].
  - split; [discriminate | intros H; inversion H].
  - split.
    + destruct (List.length tail1 =? List.length tail2); [|discriminate].
      destruct (elt_eq head1 head2) as [[|]|] eqn:Hhd;
        destruct (tuple_eq elt_eq tail1 tail2) as [[|]|] eqn:Htl;
        try discriminate.
      intros _. constructor; [exact Hhd|]. now apply IH.
    + intros H. inversion H as [|? ? ? ? Hhd Htl]; subst.
      rewrite (Forall2_length Htl), Nat.eqb_refl, Hhd.
      apply IH in Htl. now rewrite Htl.
Qed.

(** Two tuples of one arity whose slots can be compared pairwise have an
    [operator==], and it always returns. *)
Lemma tuple_eq_defined (lhs rhs : tuple elt) :
  Forall2 (fun x y => elt_eq x y <> None) lhs rhs ->
  exists b, tuple_eq elt_eq lhs rhs = Some b.
Proof.
  induction 1 as [|x y lhs rhs Hxy Htl [b Hb]]; simpl.
  - now exists true.
  - rewrite (Forall2_length Htl), Nat.eqb_refl, Hb.
    destruct (elt_eq x y) as [b1|]; [|easy]. now exists (b1 && b).
Qed.

(** Tuples of different arities have no [operator==]. *)
Lemma tuple_eq_arity (lhs rhs : tuple elt) (b : bool) :
  tuple_eq elt_eq lhs rhs = Some b -> List.length lhs = List.length rhs.
Proof.
  destruct lhs as [|head1 tail1], rhs as [|head2 tail2]; simpl;
    try discriminate; [reflexivity|].
  destruct (List.length tail1 =? List.length tail2) eqn:Hlen; [|discriminate].
  apply Nat.eqb_eq in Hlen. now rewrite Hlen.
Qed.

End Gather.

(** The five-element tuple of the instrumented type: five constructions. *)
Example reverse_five_instrumented :
  reverse_tuple five_instrumented
  = Some ([14; 13; 12; 11; 10], [14; 13; 12; 11; 10]).
Proof. reflexivity. Qed.

Example make_tuple_slots (p : Z) :
  t_make_tuple p = [VInt 42; VDouble double_3_14; VCharPtr p "downdemo"].
Proof. reflexivity. Qed.

(** A [double] that is not a number differs from itself, and so does a
    tuple that holds one. *)
Example tuple_eq_nan :
  tuple_eq value_eq [VDouble nan] [VDouble nan] = Some false.
Proof. reflexivity. Qed.

(** Tuples of different arities have no [operator==]. *)
Example tuple_eq_arity_mismatch :
  tuple_eq value_eq [VInt 1; VInt 2] [VInt 1] = None.
Proof. reflexivity. Qed.

(** C8. Tuple equality is structural: two tuples compare equal iff they
    have the same arity and every pair of corresponding slots compares
    equal, and empty tuples compare equal. For the tuple built from
    [(42, 3.14, "downdemo")], by [make_tuple] (third slot a [const char*])
    as well as by the constructor of [tuple<int, double, std::string>]:
    slot 0 equals 42, slot 1 equals 3.14, slot 2 compares equal to
    ["downdemo"], the tuple equals itself, and reversed twice it equals
    itself. *)
Theorem tuple_equality_and_round_trip :
  (forall (elt : Type) (elt_eq : elt -> elt -> option bool)
          (lhs rhs : tuple elt),
      tuple_eq elt_eq lhs rhs = Some true <->
      List.length lhs = List.length rhs /\
      Forall2 (fun x y => elt_eq x y = Some true) lhs rhs) /\
  (forall (elt : Type) (elt_eq : elt -> elt -> option bool),
      tuple_eq elt_eq [] [] = Some true) /\
  (forall p q : Z,
      slot_equals 0 (t_make_tuple p) (VInt 42) = Some true /\
      slot_equals 1 (t_make_tuple p) (VDouble double_3_14) = Some true /\
      slot_strcmp_is_0 2 (t_make_tuple p) (VCharPtr q "downdemo")
        = Some true /\
      tuple_eq value_eq (t_make_tuple p) (t_make_tuple p) = Some true /\
      reversed_twice_equals (t_make_tuple p) = Some true) /\
  (forall q : Z,
      slot_equals 0 t_typelist (VInt 42) = Some true /\
      slot_equals 1 t_typelist (VDouble double_3_14) = Some true /\
      slot_equals 2 t_typelist (VCharPtr q "downdemo") = Some true /\
      tuple_eq value_eq t_typelist t_typelist = Some true /\
      reversed_twice_equals t_typelist = Some true).
Proof.
  split; [|split; [|split]].
  - intros elt elt_eq lhs rhs. rewrite tuple_eq_Forall2. split.
    + intros H. split; [exact (Forall2_length H) | exact H].
    + now intros [_ H].
  - reflexivity.
  - intros p q. unfold reversed_twice_equals.
    rewrite reverse_tuple_spec. cbn [result_of].
    rewrite reverse_tuple_spec. cbn [result_of]. rewrite rev_involutive.
    cbn. rewrite Z.eqb_refl. repeat split.
  - intros q. repeat split.
Qed.

Section Printing.

Variable elt : Type.
Variable show : elt -> string.

Lemma append_assoc (a b c : string) :
  ((a ++ b) ++ c = a ++ (b ++ c))%string.
Proof. induction a as [|ch a IH]; simpl; [reflexivity | now rewrite IH]. Qed.

Lemma print_tuple_rest (os : string) (head : elt) (tail : tuple elt) :
  (print_tuple show (os ++ show head) tail false
   = os ++ String.concat ", " (map show (head :: tail)) ++ ")")%string.
Proof.
  revert os head. induction tail as [|next tail IH]; intros os head.
  - simpl. now rewrite append_assoc.
  - cbn [print_tuple]. rewrite <- append_assoc, IH.
    change (String.concat ", " (map show (head :: next :: tail)))
      with (show head ++ ", "
              ++ String.concat ", " (map show (next :: tail)))%string.
    now rewrite !append_assoc.
Qed.

(** C10. Inserting an empty tuple into a stream writes the single
    character ['('] and no closing parenthesis, whereas a tuple of arity
    at least one is written as its slots, separated by a comma and a
    space, between parentheses. *)
Theorem print_empty_tuple_unclosed (os : string) :
  insert_into_stream show os [] = (os ++ "(")%string /\
  insert_into_stream show "" [] = "("%string /\
  forall (head : elt) (tail : tuple elt),
    insert_into_stream show os (head :: tail)
    = (os ++ "(" ++ String.concat ", " (map show (head :: tail)) ++ ")")%string.
Proof.
  repeat split. intros head tail. unfold insert_into_stream.
  cbn [print_tuple]. rewrite <- append_assoc, print_tuple_rest.
  now rewrite append_assoc.
Qed.

End Printing.

(** [os << t] of [test_make_tuple], with the slots as the stream formats
    them. *)
Example print_make_tuple :
  insert_into_stream (fun x : string => x) "" ["42"; "3.14"; "downdemo"]%string
  = "(42, 3.14, downdemo)"%string.
Proof. reflexivity. Qed.

(** *** Further properties of the tuple functions *)

Section MoreGather.

Variable elt : Type.

Lemma get_pack_Forall2 (t : tuple elt) (Indices : list nat) (r : list elt) :
  get_pack t Indices = Some r <->
  Forall2 (fun i x => get i t = Some x) Indices r.
Proof.
  revert r. induction Indices as [|i rest IH]; intros r; simpl.
  - split.
    + intros [= <-]. constructor.
    + intros H. now inversion H.
  - split.
    + destruct (get i t) as [x|] eqn:Hx; [|discriminate].
      destruct (get_pack t rest) as [xs|]; [|discriminate].
      intros [= <-]. constructor; [exact Hx | now apply IH].
    + intros H. inversion H as [|? x ? xs Hx Hrest]; subst.
      rewrite Hx. apply IH in Hrest. now rewrite Hrest.
Qed.

Lemma get_pack_None (t : tuple elt) (Indices : list nat) :
  get_pack t Indices = None <->
  Exists (fun i => List.length t <= i) Indices.
Proof.
  induction Indices as [|i rest IH]; simpl.
  - split; [discriminate | intros H; inversion H].
  - rewrite get_nth_error.
    destruct (nth_error t i) as [x|] eqn:Hx.
    + destruct (get_pack t rest) as [xs|].
      * split; [discriminate|]. intros H. exfalso.
        inversion H as [? ? Hi|? ? Hrest]; subst.
        -- apply nth_error_None in Hi. congruence.
        -- apply IH in Hrest. discriminate.
      * split; [|reflexivity]. intros _. right. now apply IH.
    + split; [|reflexivity]. intros _. left. now apply nth_error_None.
Qed.

Lemma get_pack_all (t : tuple elt) :
  get_pack t (index_sequence_for t) = Some t.
Proof.
  apply get_pack_spec. exact (nth_error_all_slots [] t).
Qed.

(** X15. [select_tuple(t, Indices)] is rejected exactly when an index is
    not a position of [t]; otherwise slot [k] of the result is the slot of
    [t] at the [k]-th index (an index may occur several times or not at
    all), and the elements constructed are those of the result, one per
    index. *)
Theorem select_tuple_gathers_by_index (t : tuple elt) (Indices : list nat) :
  (select_tuple t Indices = None <->
   Exists (fun i => List.length t <= i) Indices) /\
  (forall r copies,
     select_tuple t Indices = Some (r, copies) <->
     Forall2 (fun i x => get i t = Some x) Indices r /\ copies = r) /\
  List.length (copies_of (select_tuple t Indices))
  = match select_tuple t Indices with
    | Some _ => List.length Indices
    | None => 0
    end.
Proof.
  unfold select_tuple, make_tuple. split; [|split].
  - rewrite <- get_pack_None. now destruct (get_pack t Indices).
  - intros r copies. rewrite <- get_pack_Forall2.
    destruct (get_pack t Indices) as [refs|].
    + rewrite tuple_ctor_copies. split.
      * now intros [= <- <-].
      * now intros [[= <-] ->].
    + split; [discriminate | now intros [? _]].
  - destruct (get_pack t Indices) as [refs|] eqn:Hrefs; [|reflexivity].
    rewrite tuple_ctor_copies. simpl.
    apply get_pack_Forall2 in Hrefs. symmetry. exact (Forall2_length Hrefs).
Qed.

Lemma replicated_index_list_app (Index N : nat) (IndexList : list nat) :
  replicated_index_list Index N IndexList = IndexList ++ repeat Index N.
Proof.
  revert IndexList. induction N as [|N IH]; intros IndexList; simpl.
  - now rewrite app_nil_r.
  - rewrite IH, <- app_assoc. reflexivity.
Qed.

Lemma get_pack_repeat (t : tuple elt) (Index N : nat) :
  get_pack t (repeat Index N)
  = match N, get Index t with
    | 0, _ => Some []
    | S _, Some x => Some (repeat x N)
    | S _, None => None
    end.
Proof.
  induction N as [|N IH]; [reflexivity|].
  cbn [repeat get_pack]. rewrite IH.
  destruct (get Index t) as [x|]; [|reflexivity]. now destruct N.
Qed.

(** X16. [splat_tuple<I, N>(t)] is the tuple of [N] copies of slot [I] of
    [t], made by [N] constructions; it is rejected when [I] is not a
    position of [t], unless [N] is 0, for which it is the empty tuple
    whatever [I] is. *)
Theorem splat_tuple_replicates (Index N : nat) (t : tuple elt) :
  splat_tuple Index N t
  = match N, get Index t with
    | 0, _ => Some ([], [])
    | S _, Some x => Some (repeat x N, repeat x N)
    | S _, None => None
    end.
Proof.
  unfold splat_tuple, select_tuple, make_tuple.
  rewrite replicated_index_list_app. cbn [app]. rewrite get_pack_repeat.
  destruct N as [|N]; [reflexivity|].
  destruct (get Index t) as [x|]; [|reflexivity].
  now rewrite tuple_ctor_copies.
Qed.

(** X17. [apply(f, t)] is always well-formed and calls [f] with all the
    slots of [t] as arguments, in slot order; [t[Index]] is [get<Index>(t)],
    which exists exactly for the positions of [t]. *)
Theorem apply_passes_slots_in_order (R : Type) (f : list elt -> R)
    (t : tuple elt) :
  apply f t = Some (f t) /\
  forall Index,
    subscript t Index = get Index t /\
    (get Index t = None <-> List.length t <= Index).
Proof.
  split.
  - unfold apply, apply_impl. now rewrite get_pack_all.
  - intros Index. split; [reflexivity|].
    rewrite get_nth_error. apply nth_error_None.
Qed.

Lemma push_back_tuple_app (t : tuple elt) (v : elt) :
  push_back_tuple t v = t ++ [v].
Proof.
  induction t as [|head tail IH]; simpl; [reflexivity | now rewrite IH].
Qed.

Lemma pop_back_tuple_last (t : tuple elt) (v : elt) :
  pop_back_tuple (t ++ [v]) = Some t.
Proof.
  unfold pop_back_tuple. rewrite reverse_tuple_spec. cbn [result_of].
  rewrite rev_app_distr. cbn [rev app pop_front_tuple get_tail].
  rewrite reverse_tuple_spec. cbn [result_of]. now rewrite rev_involutive.
Qed.

(** X18. [push_back_tuple] appends its value after the slots of the
    tuple; [pop_back_tuple] removes the last slot, is rejected on the
    empty tuple, and undoes [push_back_tuple]; [pop_front_tuple] undoes
    [push_front_tuple]. *)
Theorem tuple_push_pop_round_trip (t : tuple elt) (v : elt) :
  push_back_tuple t v = t ++ [v] /\
  pop_back_tuple (push_back_tuple t v) = Some t /\
  pop_front_tuple (push_front_tuple t v) = Some t /\
  pop_back_tuple t = match t with
                     | [] => None
                     | _ :: _ => Some (removelast t)
                     end.
Proof.
  split; [apply push_back_tuple_app|].
  split; [rewrite push_back_tuple_app; apply pop_back_tuple_last|].
  split; [reflexivity|].
  destruct (TypelistFacts.list_eq_nil_dec t) as [->|Hne]; [reflexivity|].
  destruct (exists_last Hne) as (t' & e & ->).
  rewrite pop_back_tuple_last, removelast_last. now destruct t'.
Qed.

(** X24. Reversing a tuple twice gives the tuple back, for every tuple:
    [reverse_tuple] is always well-formed, returns the slots in reverse
    order, and applied to its own result returns the original slots. *)
Theorem reverse_tuple_involution (t : tuple elt) :
  exists r,
    result_of (reverse_tuple t) = Some r /\
    List.length r = List.length t /\
    (forall N x, get N t = Some x ->
                 get (List.length t - 1 - N) r = Some x) /\
    result_of (reverse_tuple r) = Some t.
Proof.
  exists (rev t). rewrite !reverse_tuple_spec. cbn [result_of].
  rewrite rev_involutive, length_rev. repeat split.
  intros N x. rewrite !get_nth_error. intros Hx.
  assert (HN : (N < List.length t)%nat)
    by (apply nth_error_Some; congruence).
  rewrite nth_error_rev.
  destruct (Nat.ltb_spec (List.length t - 1 - N) (List.length t)); [|lia].
  rewrite <- Hx. f_equal. lia.
Qed.

Variable elt_eq : elt -> elt -> option bool.

(** X19. Two tuples have an [operator==] exactly when they have the same
    arity and every pair of corresponding slots has one; it is then false
    exactly when some pair of corresponding slots compares unequal. *)
Theorem tuple_eq_exists_iff_comparable (lhs rhs : tuple elt) :
  ((exists b, tuple_eq elt_eq lhs rhs = Some b) <->
   Forall2 (fun x y => elt_eq x y <> None) lhs rhs) /\
  (tuple_eq elt_eq lhs rhs = Some false <->
   Forall2 (fun x y => elt_eq x y <> None) lhs rhs /\
   Exists (fun xy => elt_eq (fst xy) (snd xy) = Some false)
     (combine lhs rhs)).
Proof.
  assert (Hdef : forall l r : tuple elt,
             (exists b, tuple_eq elt_eq l r = Some b) ->
             Forall2 (fun x y => elt_eq x y <> None) l r).
  { induction l as [|head1 tail1 IH]; intros [|head2 tail2]; simpl;
      try (intros [b Hb]; discriminate); [constructor|].
    intros [b Hb].
    destruct (List.length tail1 =? List.length tail2); [|discriminate].
    destruct (elt_eq head1 head2) as [b1|] eqn:Hhd; [|discriminate].
    destruct (tuple_eq elt_eq tail1 tail2) as [b2|] eqn:Htl; [|discriminate].
    constructor; [congruence|]. apply IH. now exists b2. }
  split.
  - split; [apply Hdef | apply tuple_eq_defined].
  - revert rhs. induction lhs as [|head1 tail1 IH]; intros [|head2 tail2];
      simpl.
    + split; [discriminate | intros [_ H]; inversion H].
    + split; [discriminate | intros [H _]; inversion H].
    + split; [discriminate | intros [H _]; inversion H].
    + split.
      * intros H. assert (Hall := Hdef (head1 :: tail1) (head2 :: tail2)
                                    (ex_intro _ false H)).
        split; [exact Hall|]. simpl in H.
        destruct (List.length tail1 =? List.length tail2); [|discriminate].
        destruct (elt_eq head1 head2) as [[|]|] eqn:Hhd; try discriminate.
        -- destruct (tuple_eq elt_eq tail1 tail2) as [[|]|] eqn:Htl;
             try discriminate.
           right. now apply IH.
        -- now left.
      * intros [Hall Hex]. inversion Hall as [|? ? ? ? Hhd Htl]; subst.
        rewrite (Forall2_length Htl), Nat.eqb_refl.
        destruct (tuple_eq_defined elt_eq Htl) as [b2 Hb2].
        destruct (elt_eq head1 head2) as [b1|] eqn:H1; [|easy].
        inversion Hex as [? ? Hfalse|? ? Hrest]; subst.
        -- simpl in Hfalse. rewrite H1 in Hfalse. injection Hfalse as ->.
           now rewrite Hb2.
        -- assert (Htail : tuple_eq elt_eq tail1 tail2 = Some false)
             by (apply IH; now split).
           rewrite Htail. now rewrite andb_false_r.
Qed.

End MoreGather.

Section SortTuple.

Variable elt : Type.
Variable ty : Type.
Variable type_of : elt -> ty.
Variable Compare : ty -> ty -> bool.

Lemma Sorted_Forall2 (A B : Type) (R : A -> A -> Prop) (R' : B -> B -> Prop)
    (P : A -> B -> Prop) (l1 : list A) (l2 : list B) :
  (forall a b x y, R a b -> P a x -> P b y -> R' x y) ->
  Sorted R l1 -> Forall2 P l1 l2 -> Sorted R' l2.
Proof.
  intros Htransfer Hs. revert l2.
  induction Hs as [|a l1 Hs IH Hhd]; intros l2 H2;
    inversion H2 as [|? x ? l2' Hax Hrest]; subst; constructor.
  - now apply IH.
  - destruct Hhd as [|b l1' Hab]; inversion Hrest as [|? y ? ? Hby ?]; subst;
      constructor. exact (Htransfer a b x y Hab Hax Hby).
Qed.

Lemma slots_at_Forall2 (t : tuple elt) (Indices : list nat) (r : list elt) :
  map (nth_error t) Indices = map Some r ->
  Forall2 (fun i x => nth_error t i = Some x) Indices r.
Proof.
  revert r. induction Indices as [|i rest IH]; intros [|x r]; simpl;
    try discriminate; [constructor|].
  intros [= Hx Hrest]. constructor; [exact Hx | now apply IH].
Qed.

Lemma metafun_of_nth_element_slots (t : tuple elt) (M N : nat) (x y : elt) :
  nth_error t M = Some x -> nth_error t N = Some y ->
  metafun_of_nth_element (map type_of t) Compare M N
  = Compare (type_of x) (type_of y).
Proof.
  intros Hx Hy. unfold metafun_of_nth_element.
  rewrite !TypelistFacts.nth_element_nth_error.
  now rewrite (map_nth_error type_of M t Hx), (map_nth_error type_of N t Hy).
Qed.

Lemma metafun_of_nth_element_asym (t : tuple elt) :
  (forall a b, Compare a b = true -> Compare b a = false) ->
  forall M N,
    metafun_of_nth_element (map type_of t) Compare M N = true ->
    metafun_of_nth_element (map type_of t) Compare N M = false.
Proof.
  intros Hasym M N. unfold metafun_of_nth_element.
  destruct (Typelist.nth_element (map type_of t) M) as [a|];
    destruct (Typelist.nth_element (map type_of t) N) as [b|];
    try discriminate; try reflexivity.
  apply Hasym.
Qed.

(** X20. [sort_tuple<Compare>(t)] is always well-formed; the tuple it
    returns is a permutation of the slots of [t], each constructed once;
    and when [Compare] is asymmetric the types of its slots are sorted: of
    two adjacent slots the later one's type does not compare before the
    earlier one's. *)
Theorem sort_tuple_sorts_by_type (t : tuple elt) :
  exists r,
    sort_tuple type_of Compare t = Some (r, r) /\
    Permutation t r /\
    ((forall a b, Compare a b = true -> Compare b a = false) ->
     Sorted (fun earlier later =>
               Compare (type_of later) (type_of earlier) = false) r).
Proof.
  set (Apply := metafun_of_nth_element (map type_of t) Compare).
  set (sorted := Typelist.insertion_sort Apply (index_sequence_for t)).
  assert (Hperm : Permutation (map Some t) (map (nth_error t) sorted)).
  { rewrite <- (nth_error_all_slots [] t). apply Permutation_map.
    apply TypelistFacts.insertion_sort_perm. }
  apply Permutation_sym, Permutation_map_inv in Hperm as (r & Hmap & Hr).
  exists r. split; [|split].
  - unfold sort_tuple, select_tuple, make_tuple. fold Apply. fold sorted.
    rewrite (proj2 (get_pack_spec t sorted r) Hmap).
    now rewrite tuple_ctor_copies.
  - exact Hr.
  - intros Hasym.
    apply Sorted_Forall2
      with (R := Typelist.may_follow Apply)
           (P := fun i x => nth_error t i = Some x) (l1 := sorted).
    + intros i j x y Hij Hx Hy. unfold Typelist.may_follow, Apply in Hij.
      now rewrite (metafun_of_nth_element_slots t j i Hy Hx) in Hij.
    + apply TypelistFacts.insertion_sort_Sorted.
      exact (metafun_of_nth_element_asym t Hasym).
    + exact (slots_at_Forall2 t sorted r Hmap).
Qed.

End SortTuple.

(** [test_sort_tuple]: [long long], [std::complex<double>], [int] and
    [double] slots sorted by [smaller] on an LP64 platform; the two slots
    of eight bytes change places. *)
Example test_sort_tuple :
  sort_tuple (fun x : nat * nat => snd x) Nat.ltb
    [(17, 8); (12, 16); (42, 4); (3, 8)]
  = Some ([(42, 4); (3, 8); (17, 8); (12, 16)],
          [(42, 4); (3, 8); (17, 8); (12, 16)]).
Proof. reflexivity. Qed.

(** [test_typelist]: [splat_tuple<0, 3>(t)]. *)
Example test_splat_tuple :
  result_of (splat_tuple 0 3 t_typelist)
  = Some [VInt 42; VInt 42; VInt 42].
Proof. reflexivity. Qed.

(** *** The literal operator *)

Section Literal.

Local Open Scope Z_scope.

(** The value of a digit character (0 for a character that is none). *)
Local Abbreviation digit c :=
  (match to_int c with Some d => d | None => 0 end).

Local Abbreviation is_digit_char :=
  (fun c : ascii => negb (Ascii.eqb c "'")).

Lemma int_checked_in_range (z : Z) :
  - 2 ^ 31 <= z <= 2 ^ 31 - 1 -> int_checked z = Some z.
Proof.
  intros [Hlo Hhi]. unfold int_checked.
  apply Z.leb_le in Hlo, Hhi. now rewrite Hlo, Hhi.
Qed.

Lemma int_checked_Some (z r : Z) :
  int_checked z = Some r -> r = z /\ z <= 2 ^ 31 - 1.
Proof.
  unfold int_checked.
  destruct (- 2 ^ 31 <=? z) eqn:Hlo; [|discriminate].
  destruct (z <=? 2 ^ 31 - 1) eqn:Hhi; [|discriminate].
  apply Z.leb_le in Hhi. simpl. now intros [= <-].
Qed.

(** The loop reads the digits from the least significant one. *)
Lemma parse_loop_value (base : Z) (chars : list ascii) :
  forall res multiplier,
    1 <= base -> 1 <= multiplier -> 0 <= res < multiplier ->
    digits_in_base base (filter is_digit_char chars) ->
    multiplier * base ^ Z.of_nat (List.length (filter is_digit_char chars))
    <= 2 ^ 31 - 1 ->
    parse_loop base chars res multiplier
    = Some (res + multiplier
                  * fold_right (fun c acc => digit c + base * acc) 0
                      (filter is_digit_char chars)).
Proof.
  induction chars as [|c rest IH]; intros res multiplier Hbase Hmul Hres
    Hdigits Hfit; cbn [parse_loop filter].
  - cbn. f_equal. lia.
  - cbn [filter] in Hdigits, Hfit.
    destruct (Ascii.eqb c "'"); cbn [negb] in *; [now apply IH|].
    inversion Hdigits as [|? ? (d & Hd & Hrange) Hrest]; subst.
    cbn [List.length fold_right] in *. rewrite Hd in *.
    rewrite Nat2Z.inj_succ, Z.pow_succ_r in Hfit by lia.
    set (n := Z.of_nat (List.length (filter is_digit_char rest))) in *.
    assert (Hpow : 1 <= base ^ n) by (apply Z.pow_le_mono_r with (b := 0); lia).
    assert (Hstep : multiplier * base <= 2 ^ 31 - 1) by nia.
    rewrite (@int_checked_in_range (d * multiplier)) by nia.
    rewrite (@int_checked_in_range (res + d * multiplier)) by nia.
    rewrite (@int_checked_in_range (multiplier * base)) by nia.
    rewrite IH; trivial; try nia.
    f_equal. ring.
Qed.

(** A result means that the multiplier never left the range of [int]. *)
Lemma parse_loop_fits (base : Z) (chars : list ascii) :
  forall res multiplier r,
    1 <= base -> 1 <= multiplier <= 2 ^ 31 - 1 ->
    parse_loop base chars res multiplier = Some r ->
    multiplier * base ^ Z.of_nat (List.length (filter is_digit_char chars))
    <= 2 ^ 31 - 1.
Proof.
  induction chars as [|c rest IH]; intros res multiplier r Hbase Hmul;
    cbn [parse_loop filter].
  - intros _. cbn. lia.
  - destruct (Ascii.eqb c "'"); cbn [negb]; [now apply IH|].
    destruct (to_int c) as [d|]; [|discriminate].
    destruct (int_checked (d * multiplier)) as [p|]; [|discriminate].
    destruct (int_checked (res + p)) as [res'|]; [|discriminate].
    destruct (int_checked (multiplier * base)) as [m'|] eqn:Hm;
      [|discriminate].
    apply int_checked_Some in Hm as [-> Hm]. intros H.
    apply IH in H; try nia.
    cbn [List.length]. rewrite Nat2Z.inj_succ, Z.pow_succ_r by lia. nia.
Qed.

Lemma prefix_of_base (arr : list ascii) :
  fst (prefix_of arr) = 2 \/ fst (prefix_of arr) = 8 \/
  fst (prefix_of arr) = 10 \/ fst (prefix_of arr) = 16.
Proof.
  unfold prefix_of. destruct arr as [|c0 [|c1 [|c2 rest]]]; auto.
  destruct (Ascii.eqb c0 "0"); auto.
  destruct (Ascii.eqb c1 "x" || Ascii.eqb c1 "X"); auto.
  destruct (Ascii.eqb c1 "b" || Ascii.eqb c1 "B"); auto.
Qed.

Lemma fold_left_pointwise (A B : Type) (f g : A -> B -> A) :
  (forall a b, f a b = g a b) ->
  forall l a, fold_left f l a = fold_left g l a.
Proof.
  intros Hfg l. induction l as [|b l IH]; intros a; simpl; [reflexivity|].
  now rewrite Hfg, IH.
Qed.

Lemma digits_value_lsb (base : Z) (digits : list ascii) :
  digits_value base digits
  = fold_right (fun c acc => digit c + base * acc) 0 (rev digits).
Proof.
  unfold digits_value. rewrite fold_left_rev_right.
  apply fold_left_pointwise. intros acc c. ring.
Qed.

Lemma loop_digits (offset : nat) (arr : list ascii) :
  filter is_digit_char (rev (skipn offset arr)) = rev (digits_of offset arr).
Proof. unfold digits_of. apply filter_rev. Qed.

(** X21. [parse_int] yields the number the literal denotes: for the base
    and the offset its prefix gives, when the characters after the prefix
    other than digit separators are digits of the base and the base to
    the power of their number fits an [int], the result is the value of
    these digits in the base; the separators do not count. *)
Theorem parse_int_value (arr : list ascii) (base : Z) (offset : nat) :
  prefix_of arr = (base, offset) ->
  digits_in_base base (digits_of offset arr) ->
  base ^ Z.of_nat (List.length (digits_of offset arr)) <= 2 ^ 31 - 1 ->
  parse_int arr = Some (digits_value base (digits_of offset arr)).
Proof.
  intros Hprefix Hdigits Hfit. unfold parse_int. rewrite Hprefix.
  assert (Hbase : 1 <= base).
  { pose proof (prefix_of_base arr) as H. rewrite Hprefix in H. simpl in H.
    lia. }
  rewrite parse_loop_value; trivial; try lia.
  - rewrite loop_digits, digits_value_lsb. f_equal. lia.
  - rewrite loop_digits. unfold digits_in_base. apply Forall_rev.
    exact Hdigits.
  - rewrite loop_digits, length_rev. lia.
Qed.

(** X22. [parse_int] has no value when the base to the power of the
    number of digits exceeds the largest [int], whatever the digits are:
    the multiplier is multiplied by the base once more after the most
    significant digit, and that product overflows. So no decimal literal
    of ten digits and no hexadecimal literal of eight digits is parsed,
    although some of them denote an [int]. *)
Theorem parse_int_overflow (arr : list ascii) (base : Z) (offset : nat) :
  prefix_of arr = (base, offset) ->
  2 ^ 31 - 1 < base ^ Z.of_nat (List.length (digits_of offset arr)) ->
  parse_int arr = None.
Proof.
  intros Hprefix Hbig. unfold parse_int. rewrite Hprefix.
  assert (Hbase : 1 <= base).
  { pose proof (prefix_of_base arr) as H. rewrite Hprefix in H. simpl in H.
    lia. }
  destruct (parse_loop base (rev (skipn offset arr)) 0 1) as [r|] eqn:Hloop;
    [|reflexivity].
  apply parse_loop_fits in Hloop; try lia.
  rewrite loop_digits, length_rev in Hloop. lia.
Qed.

Lemma parse_int_value_witness :
  literal_c "0b1111'1111" = Some 255.
Proof.
  apply (@parse_int_value (list_ascii_of_string "0b1111'1111") 2 2%nat
           eq_refl).
  - unfold digits_in_base, digits_of. cbn [list_ascii_of_string skipn filter
      Ascii.eqb Bool.eqb negb andb].
    repeat (constructor;
            [eexists; split;
             [reflexivity | cbv; split; [discriminate | reflexivity]] |]).
    constructor.
  - cbv. discriminate.
Defined.

Lemma parse_int_overflow_witness :
  literal_c "1000000000" = None /\ 1000000000 <= 2 ^ 31 - 1.
Proof.
  split; [|lia].
  apply (@parse_int_overflow (list_ascii_of_string "1000000000") 10 0%nat
           eq_refl).
  reflexivity.
Defined.

End Literal.

(** The literals of the tests: [0_c], [1_c] and [2_c] of [test_make_tuple],
    [0xFF_c], an octal and a decimal one with a separator. *)
Example literal_indices :
  literal_c "0" = Some 0%Z /\ literal_c "1" = Some 1%Z /\
  literal_c "2" = Some 2%Z.
Proof. repeat split. Qed.

Example literal_hexadecimal : literal_c "0xFF" = Some 255%Z.
Proof. reflexivity. Qed.

Example literal_octal : literal_c "017" = Some 15%Z.
Proof. reflexivity. Qed.

Example literal_separator : literal_c "1'000'000" = Some 1000000%Z.
Proof. reflexivity. Qed.

(** A hexadecimal letter is taken as a digit in every base: the
    characters of the floating literal [1e3] are read as the decimal digits
    1, 14 and 3. *)
Example literal_letter_in_decimal : literal_c "1e3" = Some 243%Z.
Proof. reflexivity. Qed.

(** The largest [int], in hexadecimal: eight digits. *)
Example literal_int_max : literal_c "0x7FFFFFFF" = None.
Proof. reflexivity. Qed.

End TupleFacts.

(** ** Variant *)

(** The alternatives of a variant are pairwise distinct ([NoDup Types]
    below): [variant<Types...>] derives from [variant_choice<T, Types...>]
    for each of them, and a class cannot have one direct base twice. *)

Module VariantFacts.

Import VariantModel.

Unset Implicit Arguments.

Section FindIndex.

Variable T : Type.
Variable T_eq_dec : forall a b : T, {a = b} + {a <> b}.

Lemma is_same_true (a b : T) : is_same T_eq_dec a b = true <-> a = b.
Proof.
  unfold is_same. destruct (T_eq_dec a b); split; congruence.
Qed.

Lemma find_index_of_Some (l : list T) (t : T) (N i : nat) :
  Typelist.find_index_of (is_same T_eq_dec) l t N = Some i ->
  N <= i /\ nth_error l (i - N) = Some t.
Proof.
  revert N. induction l as [|Head Tail IH]; intros N; simpl; [discriminate|].
  destruct (is_same T_eq_dec Head t) eqn:Hs.
  - intros [= <-]. apply is_same_true in Hs. subst.
    rewrite Nat.sub_diag. now split.
  - intros H. apply IH in H as [Hle Hnth]. split; [lia|].
    replace (i - N) with (S (i - (N + 1))) by lia. exact Hnth.
Qed.

Lemma find_index_of_In (l : list T) (t : T) (N : nat) :
  In t l -> exists i, Typelist.find_index_of (is_same T_eq_dec) l t N = Some i.
Proof.
  revert N. induction l as [|Head Tail IH]; intros N; simpl; [easy|].
  intros Hin. destruct (is_same T_eq_dec Head t) eqn:Hs; [now eexists|].
  destruct Hin as [->|Hin]; [|now apply IH].
  assert (is_same T_eq_dec t t = true) by now apply is_same_true.
  congruence.
Qed.

End FindIndex.

Section Machine.

Variable ty : Type.
Variable ty_eq_dec : forall a b : ty, {a = b} + {a <> b}.
Variable val : Type.
Variable E : Type.
Variable construct : value_category -> ty -> val -> E + val.
Variable assign : value_category -> ty -> val -> val -> val * option E.
Variable default_construct : ty -> E + val.
Variable Types : list ty.

Local Abbreviation Discriminator := (VariantModel.Discriminator ty_eq_dec Types).
Local Abbreviation choice_destroy := (VariantModel.choice_destroy ty_eq_dec E Types).
Local Abbreviation destroy_choices :=
  (VariantModel.destroy_choices ty_eq_dec E Types).
Local Abbreviation destroy := (VariantModel.destroy ty_eq_dec E Types).
Local Abbreviation destructor := (VariantModel.destructor ty_eq_dec E Types).
Local Abbreviation choice_assign :=
  (VariantModel.choice_assign ty_eq_dec construct assign Types).
Local Abbreviation choice_ctor :=
  (VariantModel.choice_ctor ty_eq_dec construct Types).
Local Abbreviation empty := (@VariantModel.empty ty val E).
Local Abbreviation is_ := (VariantModel.is_ ty_eq_dec E Types).
Local Abbreviation get := (VariantModel.get ty_eq_dec E Types).
Local Abbreviation visit := (@VariantModel.visit ty ty_eq_dec val E Types).
Local Abbreviation variant_visit_impl :=
  (@VariantModel.variant_visit_impl ty ty_eq_dec val E Types).
Local Abbreviation variant_from :=
  (VariantModel.variant_from ty_eq_dec construct Types).
Local Abbreviation variant_default :=
  (VariantModel.variant_default ty_eq_dec construct assign default_construct
     Types).
Local Abbreviation consistent := (VariantModel.consistent ty_eq_dec Types).
Local Abbreviation variant := (VariantModel.variant ty val).
Local Abbreviation returns := (@VariantModel.returns ty val E _).
Local Abbreviation empty_variant := (VariantModel.empty_variant E).
Local Abbreviation throws := (@VariantModel.throws ty val E _).

Ltac run :=
  unfold VariantModel.bind, VariantModel.ret, VariantModel.throw,
    VariantModel.fail, VariantModel.get_discriminator,
    VariantModel.set_discriminator; cbn [buffer_ discriminator_ events].

Lemma Discriminator_spec (T : ty) (D : nat) :
  Discriminator T = Some D ->
  1 <= D /\ nth_error Types (D - 1) = Some T.
Proof.
  unfold VariantModel.Discriminator.
  destruct (Typelist.find_index_of _ Types T 0) as [i|] eqn:Hi; [|discriminate].
  intros [= <-]. apply find_index_of_Some in Hi as [_ Hnth].
  split; [lia|]. now replace (i + 1 - 1) with (i - 0) by lia.
Qed.

Lemma Discriminator_inj (A B : ty) (D : nat) :
  Discriminator A = Some D -> Discriminator B = Some D -> A = B.
Proof.
  intros HA HB. apply Discriminator_spec in HA as [_ HA].
  apply Discriminator_spec in HB as [_ HB]. congruence.
Qed.

Lemma Discriminator_In (T : ty) :
  In T Types -> exists D, Discriminator T = Some D.
Proof.
  intros Hin. unfold VariantModel.Discriminator.
  destruct (find_index_of_In ty ty_eq_dec Types T 0 Hin) as [i ->]. now eexists.
Qed.

Lemma Discriminator_member (T : ty) (D : nat) :
  Discriminator T = Some D -> In T Types.
Proof.
  intros H. apply Discriminator_spec in H as [_ H].
  now apply nth_error_In in H.
Qed.

Lemma Discriminator_front (T : ty) :
  Typelist.front Types = Some T -> Discriminator T = Some 1.
Proof.
  unfold VariantModel.Discriminator. destruct Types as [|Head Tail]; simpl;
    [discriminate|].
  intros [= ->]. now rewrite (proj2 (is_same_true ty ty_eq_dec T T) eq_refl).
Qed.

(** A base whose discriminator is not the stored one destroys nothing. *)
Lemma choice_destroy_other (T : ty) (D : nat) (v : variant) :
  Discriminator T = Some D -> discriminator_ v <> D ->
  choice_destroy T v = returns false v.
Proof.
  intros HD Hne. unfold VariantModel.choice_destroy, VariantModel.choice.
  rewrite HD. run. apply Nat.eqb_neq in Hne. now rewrite Hne.
Qed.

Lemma destroy_choices_none (ts : list ty) (v : variant) :
  (forall T, In T ts -> In T Types) ->
  (forall T, In T ts -> Discriminator T <> Some (discriminator_ v)) ->
  destroy_choices ts v = returns tt v.
Proof.
  induction ts as [|T rest IH]; intros Hmem Hne; simpl; [reflexivity|].
  destruct (Discriminator_In T (Hmem T (or_introl eq_refl))) as [D HD].
  unfold VariantModel.bind at 1.
  rewrite (choice_destroy_other T D v HD).
  - apply IH; intros; [apply Hmem | apply Hne]; now right.
  - intros Heq. apply (Hne T (or_introl eq_refl)). congruence.
Qed.

(** The fold destroys the object the discriminator names, once. *)
Lemma destroy_choices_live (ts : list ty) (v : variant) (A : ty) (a : val) :
  (forall T, In T ts -> In T Types) ->
  NoDup ts -> In A ts ->
  buffer_ v = Some (A, a) ->
  Discriminator A = Some (discriminator_ v) ->
  destroy_choices ts v =
  returns tt {| buffer_ := None;
                discriminator_ := discriminator_ v;
                events := events v ++ [destroyed A a] |}.
Proof.
  induction ts as [|T rest IH]; intros Hmem Hnd Hin Hbuf HA; [easy|].
  inversion Hnd as [|? ? Hnotin Hnd']; subst. simpl.
  destruct (ty_eq_dec T A) as [->|HTA].
  - unfold VariantModel.bind at 1.
    unfold VariantModel.choice_destroy, VariantModel.choice.
    rewrite HA. run. rewrite Nat.eqb_refl.
    unfold VariantModel.pseudo_destructor, VariantModel.get_buffer_as. run.
    rewrite Hbuf. destruct (ty_eq_dec A A) as [_|]; [|easy].
    apply destroy_choices_none; cbn [discriminator_].
    + intros; apply Hmem; now right.
    + intros T HT Heq. apply Hnotin.
      now rewrite <- (Discriminator_inj T A _ Heq HA).
  - destruct (Discriminator_In T (Hmem T (or_introl eq_refl))) as [D HD].
    unfold VariantModel.bind at 1. rewrite (choice_destroy_other T D v HD).
    + apply IH; trivial.
      * intros; apply Hmem; now right.
      * now destruct Hin.
    + intros Heq. apply HTA, (Discriminator_inj T A D); congruence.
Qed.

(** [destroy()] on a consistent variant destroys the live object, if any,
    and then sets the discriminator to 0. *)
Lemma destroy_consistent (v : variant) :
  NoDup Types -> consistent v ->
  destroy v =
  returns tt {| buffer_ := None;
                discriminator_ := 0;
                events := events v ++ VariantModel.live_object_destroyed v
                            ++ [discriminator_set ty val 0] |}.
Proof.
  intros Hnd Hc. unfold VariantModel.destroy, VariantModel.consistent,
    VariantModel.live_object_destroyed in *.
  unfold VariantModel.bind at 1.
  destruct (buffer_ v) as [[A a]|] eqn:Hbuf.
  - rewrite (destroy_choices_live Types v A a); trivial.
    + run. simpl. now rewrite <- app_assoc.
    + now apply Discriminator_member in Hc.
  - rewrite destroy_choices_none; trivial.
    + run. simpl. now rewrite Hbuf.
    + intros T _ HT. rewrite Hc in HT.
      apply Discriminator_spec in HT. lia.
Qed.

Lemma destroy_empty_state (v : variant) :
  discriminator_ v = 0 ->
  destroy v =
  returns tt {| buffer_ := buffer_ v;
                discriminator_ := 0;
                events := events v ++ [discriminator_set ty val 0] |}.
Proof.
  intros H0. unfold VariantModel.destroy. unfold VariantModel.bind at 1.
  rewrite destroy_choices_none; trivial.
  intros T _ HT. rewrite H0 in HT. apply Discriminator_spec in HT. lia.
Qed.

Lemma is_at (T : ty) (D : nat) (v : variant) :
  Discriminator T = Some D ->
  is_ T v = returns (discriminator_ v =? D) v.
Proof.
  intros HD. unfold VariantModel.is_, VariantModel.choice. now rewrite HD.
Qed.

Lemma is_empty_state (T : ty) (v : variant) :
  In T Types -> discriminator_ v = 0 -> is_ T v = returns false v.
Proof.
  intros Hin H0. destruct (Discriminator_In T Hin) as [D HD].
  rewrite (is_at T D v HD), H0.
  apply Discriminator_spec in HD. now destruct D; [lia|].
Qed.

Lemma variant_visit_impl_empty (R : Type) (vis : ty -> val -> E + R)
    (Tail : list ty) :
  forall (Head : ty) (v : variant),
    (forall T, In T (Head :: Tail) -> In T Types) ->
    discriminator_ v = 0 ->
    variant_visit_impl vis Head Tail v = throws empty_variant v.
Proof.
  induction Tail as [|Head' Tail' IH]; intros Head v Hmem H0;
    cbn [VariantModel.variant_visit_impl];
    unfold VariantModel.bind at 1;
    rewrite (is_empty_state Head v (Hmem Head (or_introl eq_refl)) H0).
  - reflexivity.
  - apply IH; trivial. intros; apply Hmem; now right.
Qed.

(** C1. When a variant holds the alternative [A] and a value of another
    alternative [T] is assigned whose construction in the buffer throws,
    the exception propagates and leaves the variant empty: discriminator
    0, no object alive, [is<A>()] and [is<T>()] false; its destructor then
    returns without destroying any alternative. *)
Theorem assign_throw_leaves_empty (v : variant) (A T : ty) (a value : val)
    (vc : value_category) (e : E) :
  NoDup Types ->
  buffer_ v = Some (A, a) ->
  Discriminator A = Some (discriminator_ v) ->
  In T Types -> T <> A ->
  construct vc T value = inl e ->
  exists v',
    choice_assign vc T value v = throws (thrown e) v' /\
    discriminator_ v' = 0 /\ buffer_ v' = None /\
    empty v' = returns true v' /\
    is_ A v' = returns false v' /\
    is_ T v' = returns false v' /\
    exists v'',
      destructor v' = returns tt v'' /\
      events v'' = events v' ++ [discriminator_set ty val 0] /\
      discriminator_ v'' = 0 /\ buffer_ v'' = None.
Proof.
  intros Hnd Hbuf HA HT Hne Hthrow.
  destruct (Discriminator_In T HT) as [D HD].
  assert (Hc : consistent v)
    by (unfold VariantModel.consistent; now rewrite Hbuf).
  assert (HdD : (discriminator_ v =? D) = false).
  { apply Nat.eqb_neq. intros Heq. apply Hne.
    apply (Discriminator_inj T A D); congruence. }
  eexists. split.
  - unfold VariantModel.choice_assign, VariantModel.choice. rewrite HD.
    unfold VariantModel.bind at 1. unfold VariantModel.get_discriminator.
    rewrite HdD. unfold VariantModel.bind at 1.
    rewrite (destroy_consistent v Hnd Hc).
    unfold VariantModel.bind at 1, VariantModel.placement_new.
    rewrite Hthrow. reflexivity.
  - cbn [discriminator_ buffer_ events].
    repeat (split; [reflexivity|]).
    split; [now apply is_empty_state; [apply (Discriminator_member A _ HA)|]|].
    split; [now apply is_empty_state|].
    eexists. split.
    + unfold VariantModel.destructor. now rewrite destroy_empty_state.
    + now cbn [discriminator_ buffer_ events].
Qed.

(** C3. On a variant whose discriminator is 0, [get<T>()] of every
    alternative [T] and [visit] of every visitor throw [empty_variant];
    and [destroy()] brings a variant into that state, so that every
    [get<T>()] after it throws [empty_variant]. *)
Theorem empty_variant_access (v w : variant) :
  discriminator_ v = 0 ->
  (forall T, In T Types -> get T v = throws empty_variant v) /\
  (Types <> [] ->
   forall (R : Type) (vis : ty -> val -> E + R),
     visit vis v = throws empty_variant v) /\
  (NoDup Types -> consistent w ->
   exists w',
     destroy w = returns tt w' /\ discriminator_ w' = 0 /\
     forall T, In T Types -> get T w' = throws empty_variant w').
Proof.
  intros H0.
  assert (Hget : forall u : variant, discriminator_ u = 0 ->
                 forall T, get T u = throws empty_variant u).
  { intros u Hu T. unfold VariantModel.get, VariantModel.empty. run.
    now rewrite Hu. }
  split; [|split].
  - intros T _. now apply Hget.
  - intros Hne R vis. unfold VariantModel.visit.
    destruct Types as [|Head Tail] eqn:HT; [easy|]. rewrite <- HT.
    apply variant_visit_impl_empty; trivial. now rewrite HT.
  - intros Hnd Hc. eexists. split; [apply (destroy_consistent w Hnd Hc)|].
    split; [reflexivity|]. intros T _. now apply Hget.
Qed.

Lemma consistent_live (v : variant) (T : ty) (D : nat) :
  consistent v -> Discriminator T = Some D -> discriminator_ v = D ->
  exists x, buffer_ v = Some (T, x).
Proof.
  unfold VariantModel.consistent. intros Hc HD Hd.
  destruct (buffer_ v) as [[A a]|].
  - exists a. rewrite Hd in Hc. now rewrite (Discriminator_inj A T D Hc HD).
  - apply Discriminator_spec in HD. lia.
Qed.

Lemma assign_in_place_live (vc : value_category) (T : ty) (x value : val)
    (v : variant) :
  buffer_ v = Some (T, x) ->
  VariantModel.assign_in_place ty_eq_dec assign vc T value v =
  let v' := {| buffer_ := Some (T, fst (assign vc T x value));
               discriminator_ := discriminator_ v;
               events := events v ++ [assigned T (fst (assign vc T x value))] |}
  in
  match snd (assign vc T x value) with
  | None => returns tt v'
  | Some e => throws (thrown e) v'
  end.
Proof.
  intros Hbuf. unfold VariantModel.assign_in_place, VariantModel.get_buffer_as.
  run. rewrite Hbuf. destruct (ty_eq_dec T T) as [_|]; [|easy].
  now destruct (assign vc T x value) as [x' [e|]].
Qed.

(** C2, as the code has it. Assigning a value of the alternative [T],
    one of the first 255 alternatives, to a consistent variant: when the
    discriminator is already that of [T], the live object is assigned in
    place and the discriminator is left unchanged; otherwise the live
    object (if any) is destroyed, then [T] is constructed in the buffer,
    then the discriminator is set to that of [T], in that order. *)
Theorem assign_transition (v : variant) (T : ty) (D : nat)
    (vc : value_category) (value : val) :
  NoDup Types -> consistent v ->
  Discriminator T = Some D -> D <= 255 ->
  (discriminator_ v = D ->
   exists x v',
     buffer_ v = Some (T, x) /\
     choice_assign vc T value v =
       match snd (assign vc T x value) with
       | None => returns tt v'
       | Some e => throws (thrown e) v'
       end /\
     discriminator_ v' = discriminator_ v /\
     buffer_ v' = Some (T, fst (assign vc T x value)) /\
     events v' = events v ++ [assigned T (fst (assign vc T x value))]) /\
  (discriminator_ v <> D ->
   forall x', construct vc T value = inr x' ->
   exists v',
     choice_assign vc T value v = returns tt v' /\
     discriminator_ v' = D /\
     buffer_ v' = Some (T, x') /\
     events v' =
       events v ++ VariantModel.live_object_destroyed v
         ++ [discriminator_set ty val 0; constructed T x';
             discriminator_set ty val D]).
Proof.
  intros Hnd Hc HD Hle. split.
  - intros Hd. destruct (consistent_live v T D Hc HD Hd) as [x Hbuf].
    exists x. eexists. split; [exact Hbuf|]. split.
    + unfold VariantModel.choice_assign, VariantModel.choice. rewrite HD.
      unfold VariantModel.bind, VariantModel.get_discriminator.
      rewrite Hd, Nat.eqb_refl, <- Hd.
      rewrite (assign_in_place_live vc T x value v Hbuf). cbv zeta.
      reflexivity.
    + now cbn [discriminator_ buffer_ events].
  - intros Hd x' Hx. apply Nat.eqb_neq in Hd. eexists. split.
    + unfold VariantModel.choice_assign, VariantModel.choice. rewrite HD.
      unfold VariantModel.bind at 1. unfold VariantModel.get_discriminator.
      rewrite Hd. unfold VariantModel.bind at 1.
      rewrite (destroy_consistent v Hnd Hc).
      unfold VariantModel.bind at 1, VariantModel.placement_new.
      rewrite Hx. run. reflexivity.
    + cbn [discriminator_ buffer_ events].
      rewrite (Nat.mod_small D 256) by lia.
      rewrite <- !app_assoc. now repeat split.
Qed.

(** C4, as the code has it. A default-constructed variant holds the
    value of the first alternative, constructed from a default-constructed
    temporary, with discriminator 1, and is not empty; a variant
    constructed from a value of the alternative [T], one of the first 255
    alternatives, has the discriminator of [T] (its position plus one) and
    the value constructed in the buffer. *)
Theorem construction_sets_discriminator (T1 T : ty) (D : nat)
    (vc : value_category) (x1 x1' value x : val) :
  Typelist.front Types = Some T1 ->
  default_construct T1 = inr x1 ->
  construct rvalue T1 x1 = inr x1' ->
  Discriminator T = Some D -> D <= 255 ->
  construct vc T value = inr x ->
  (exists v,
     variant_default = returns tt v /\
     discriminator_ v = 1 /\ buffer_ v = Some (T1, x1') /\
     empty v = returns false v) /\
  (exists v,
     variant_from vc T value = returns tt v /\
     Typelist.find_index_of (is_same ty_eq_dec) Types T 0 = Some (D - 1) /\
     discriminator_ v = D /\ buffer_ v = Some (T, x)).
Proof.
  intros Hfront Hdef Hmove HD Hle Hx. split.
  - eexists. split.
    + unfold VariantModel.variant_default. rewrite Hfront, Hdef.
      unfold VariantModel.choice_assign, VariantModel.choice.
      rewrite (Discriminator_front T1 Hfront).
      unfold VariantModel.bind at 1. unfold VariantModel.get_discriminator.
      cbn [discriminator_ VariantModel.fresh Nat.eqb].
      unfold VariantModel.bind at 1.
      rewrite (destroy_empty_state (VariantModel.fresh ty val) eq_refl).
      unfold VariantModel.bind at 1, VariantModel.placement_new.
      rewrite Hmove. run. reflexivity.
    + now cbn.
  - eexists. split.
    + unfold VariantModel.variant_from, VariantModel.choice_ctor,
        VariantModel.choice. rewrite HD.
      unfold VariantModel.bind at 1, VariantModel.placement_new.
      rewrite Hx. run. reflexivity.
    + cbn [discriminator_ buffer_]. rewrite (Nat.mod_small D 256) by lia.
      repeat split. unfold VariantModel.Discriminator in HD.
      destruct (Typelist.find_index_of _ Types T 0) as [i|]; [|discriminate].
      injection HD as <-. f_equal. lia.
Qed.

(** *** Further properties of the variant *)

Local Abbreviation choice_assign_ref :=
  (@VariantModel.choice_assign_ref ty ty_eq_dec val E construct assign Types).
Local Abbreviation reference := (@VariantModel.reference val).
Local Abbreviation outside := (@VariantModel.outside val).
Local Abbreviation inside := (@VariantModel.inside val).
Local Abbreviation visit_ref :=
  (@VariantModel.visit_ref ty ty_eq_dec val E Types).
Local Abbreviation variant_visit_impl_ref :=
  (@VariantModel.variant_visit_impl_ref ty ty_eq_dec val E Types).
Local Abbreviation visit_and_assign :=
  (VariantModel.visit_and_assign ty_eq_dec construct assign Types).
Local Abbreviation variant_copy_ctor :=
  (VariantModel.variant_copy_ctor ty_eq_dec construct assign Types).
Local Abbreviation variant_copy_assign :=
  (VariantModel.variant_copy_assign ty_eq_dec construct assign Types).
Local Abbreviation keeps_consistent :=
  (@VariantModel.keeps_consistent ty ty_eq_dec val E Types).
Local Abbreviation fresh := (VariantModel.fresh ty val).
Local Abbreviation live_object_destroyed :=
  (@VariantModel.live_object_destroyed ty val).

(** The assignment of a value of the alternative the variant holds. *)
Lemma choice_assign_same (v : variant) (T : ty) (D : nat)
    (vc : value_category) (value x : val) :
  Discriminator T = Some D -> discriminator_ v = D ->
  buffer_ v = Some (T, x) ->
  choice_assign vc T value v =
  let v' := {| buffer_ := Some (T, fst (assign vc T x value));
               discriminator_ := discriminator_ v;
               events := events v ++ [assigned T (fst (assign vc T x value))] |}
  in
  match snd (assign vc T x value) with
  | None => returns tt v'
  | Some e => throws (thrown e) v'
  end.
Proof.
  intros HD Hd Hbuf. unfold VariantModel.choice_assign, VariantModel.choice.
  rewrite HD. unfold VariantModel.bind, VariantModel.get_discriminator.
  rewrite Hd, Nat.eqb_refl, <- Hd.
  exact (assign_in_place_live vc T x value v Hbuf).
Qed.

(** The assignment of a value of another alternative. *)
Lemma choice_assign_other (v : variant) (T : ty) (D : nat)
    (vc : value_category) (value : val) :
  NoDup Types -> consistent v ->
  Discriminator T = Some D -> discriminator_ v <> D ->
  choice_assign vc T value v =
  match construct vc T value with
  | inr x' =>
      returns tt
        {| buffer_ := Some (T, x');
           discriminator_ := D mod 256;
           events := ((events v ++ live_object_destroyed v
                         ++ [discriminator_set ty val 0])
                        ++ [constructed T x'])
                       ++ [discriminator_set ty val (D mod 256)] |}
  | inl e =>
      throws (thrown e)
        {| buffer_ := None;
           discriminator_ := 0;
           events := events v ++ live_object_destroyed v
                       ++ [discriminator_set ty val 0] |}
  end.
Proof.
  intros Hnd Hc HD Hd. apply Nat.eqb_neq in Hd.
  unfold VariantModel.choice_assign, VariantModel.choice. rewrite HD.
  unfold VariantModel.bind at 1. unfold VariantModel.get_discriminator.
  rewrite Hd. unfold VariantModel.bind at 1.
  rewrite (destroy_consistent v Hnd Hc).
  unfold VariantModel.bind at 1, VariantModel.placement_new.
  destruct (construct vc T value) as [e|x']; run; reflexivity.
Qed.

Lemma fresh_consistent : consistent fresh.
Proof. reflexivity. Qed.

Lemma choice_assign_keeps_consistent (v : variant) (T : ty) (D : nat)
    (vc : value_category) (value : val) :
  NoDup Types -> consistent v ->
  Discriminator T = Some D -> D <= 255 ->
  keeps_consistent (choice_assign vc T value v).
Proof.
  intros Hnd Hc HD Hle.
  destruct (Nat.eq_dec (discriminator_ v) D) as [Hd|Hd].
  - destruct (consistent_live v T D Hc HD Hd) as [x Hbuf].
    rewrite (choice_assign_same v T D vc value x HD Hd Hbuf). cbv zeta.
    destruct (snd (assign vc T x value));
      unfold VariantModel.keeps_consistent, VariantModel.consistent;
      cbn [buffer_ discriminator_]; congruence.
  - rewrite (choice_assign_other v T D vc value Hnd Hc HD Hd).
    destruct (construct vc T value) as [e|x'];
      unfold VariantModel.keeps_consistent, VariantModel.consistent;
      cbn [buffer_ discriminator_]; [reflexivity|].
    now rewrite (Nat.mod_small D 256) by lia.
Qed.

(** With a parameter bound to an object outside of the variant the
    assignment is the one of [choice_assign]. *)
Lemma choice_assign_ref_outside (v : variant) (T : ty)
    (vc : value_category) (value : val) :
  choice_assign_ref vc T (outside value) v = choice_assign vc T value v.
Proof.
  unfold VariantModel.choice_assign_ref, VariantModel.choice_assign,
    VariantModel.choice.
  destruct (Discriminator T) as [D|]; [|reflexivity].
  unfold VariantModel.bind, VariantModel.get_discriminator,
    VariantModel.read.
  destruct (discriminator_ v =? D); [reflexivity|].
  destruct (VariantModel.destroy ty_eq_dec E Types v); reflexivity.
Qed.

(** With a parameter bound into the object the variant holds, of another
    alternative than [T], the parameter is read after [destroy()] has
    ended the lifetime of that object. *)
Lemma choice_assign_ref_inside_other (v : variant) (T : ty) (D : nat)
    (vc : value_category) (part : val -> val) :
  NoDup Types -> consistent v ->
  Discriminator T = Some D -> discriminator_ v <> D ->
  choice_assign_ref vc T (inside part) v
  = @VariantModel.stuck ty val E unit undefined_behaviour.
Proof.
  intros Hnd Hc HD Hd. apply Nat.eqb_neq in Hd.
  unfold VariantModel.choice_assign_ref, VariantModel.choice. rewrite HD.
  unfold VariantModel.bind at 1. unfold VariantModel.get_discriminator.
  rewrite Hd. unfold VariantModel.bind at 1.
  rewrite (destroy_consistent v Hnd Hc). reflexivity.
Qed.

(** X1. Construction from a value, default construction, [destroy()], and
    the assignment of a value that is an object of its own (a temporary or
    an object outside of the variant), through any of the first 255
    alternatives and on a consistent variant (the discriminator names the
    object alive in the buffer, and is 0 when there is none), end in a
    consistent variant again, by a return or by an exception. The
    assignment of a value that is a reference into the variant's own held
    object, to an alternative the variant does not hold, is undefined: the
    reference is read after [destroy()]. *)
Theorem variant_operations_keep_consistent (v : variant) (T : ty) (D : nat)
    (vc : value_category) (value : val) (part : val -> val) :
  NoDup Types -> consistent v ->
  Discriminator T = Some D -> D <= 255 ->
  keeps_consistent (variant_from vc T value) /\
  keeps_consistent variant_default /\
  keeps_consistent (choice_assign_ref vc T (outside value) v) /\
  keeps_consistent (destroy v) /\
  (discriminator_ v <> D ->
   choice_assign_ref vc T (inside part) v
   = @VariantModel.stuck ty val E unit undefined_behaviour).
Proof.
  intros Hnd Hc HD Hle. split; [|split; [|split; [|split]]].
  - unfold VariantModel.variant_from, VariantModel.choice_ctor,
      VariantModel.choice. rewrite HD.
    unfold VariantModel.bind at 1, VariantModel.placement_new.
    destruct (construct vc T value) as [e|x]; run;
      unfold VariantModel.keeps_consistent, VariantModel.consistent;
      cbn [buffer_ discriminator_]; [reflexivity|].
    now rewrite (Nat.mod_small D 256) by lia.
  - unfold VariantModel.variant_default.
    destruct (Typelist.front Types) as [T1|] eqn:Hfront.
    + destruct (default_construct T1) as [e|x]; [exact fresh_consistent|].
      apply (choice_assign_keeps_consistent fresh T1 1 rvalue x Hnd
               fresh_consistent (Discriminator_front T1 Hfront)). lia.
    + apply Discriminator_member in HD. destruct Types; [easy|discriminate].
  - rewrite choice_assign_ref_outside.
    now apply (choice_assign_keeps_consistent v T D).
  - rewrite (destroy_consistent v Hnd Hc). reflexivity.
  - intros Hd. now apply (choice_assign_ref_inside_other v T D).
Qed.

Lemma is_held (v : variant) (A T : ty) (a : val) :
  consistent v -> buffer_ v = Some (A, a) -> In T Types ->
  is_ T v = returns (if ty_eq_dec T A then true else false) v.
Proof.
  intros Hc Hbuf HT. unfold VariantModel.consistent in Hc.
  rewrite Hbuf in Hc. destruct (Discriminator_In T HT) as [D HD].
  rewrite (is_at T D v HD). f_equal.
  destruct (ty_eq_dec T A) as [->|Hne].
  - apply Nat.eqb_eq. congruence.
  - apply Nat.eqb_neq. intros Heq. apply Hne.
    apply (Discriminator_inj T A D); congruence.
Qed.

Lemma empty_held (v : variant) (A : ty) (a : val) :
  consistent v -> buffer_ v = Some (A, a) -> empty v = returns false v.
Proof.
  intros Hc Hbuf. unfold VariantModel.consistent in Hc. rewrite Hbuf in Hc.
  apply Discriminator_spec in Hc as [Hpos _].
  unfold VariantModel.empty. run.
  now destruct (discriminator_ v); [lia|].
Qed.

Lemma get_held (v : variant) (A : ty) (a : val) :
  consistent v -> buffer_ v = Some (A, a) -> get A v = returns a v.
Proof.
  intros Hc Hbuf. unfold VariantModel.get. unfold VariantModel.bind at 1.
  rewrite (empty_held v A a Hc Hbuf). unfold VariantModel.bind at 1.
  assert (HA : In A Types).
  { unfold VariantModel.consistent in Hc. rewrite Hbuf in Hc.
    exact (Discriminator_member A _ Hc). }
  rewrite (is_held v A A a Hc Hbuf HA).
  destruct (ty_eq_dec A A) as [_|]; [|easy].
  unfold VariantModel.get_buffer_as. rewrite Hbuf.
  now destruct (ty_eq_dec A A).
Qed.

(** X2. On a consistent variant that holds the alternative [A] with the
    value [a]: [empty()] is false, [is<T>()] is true for [A] and false for
    every other alternative, [get<A>()] returns [a] and leaves the variant
    as it is, and [get<T>()] of another alternative neither returns a
    value nor throws [empty_variant]: its [assert] fails. *)
Theorem held_alternative_access (v : variant) (A : ty) (a : val) :
  consistent v -> buffer_ v = Some (A, a) ->
  empty v = returns false v /\
  (forall T, In T Types ->
     is_ T v = returns (if ty_eq_dec T A then true else false) v) /\
  get A v = returns a v /\
  (forall T, In T Types -> T <> A ->
     get T v = @VariantModel.stuck ty val E val assertion_failure).
Proof.
  intros Hc Hbuf. split; [exact (empty_held v A a Hc Hbuf)|].
  split; [intros T; exact (is_held v A T a Hc Hbuf)|].
  split; [exact (get_held v A a Hc Hbuf)|].
  intros T HT Hne. unfold VariantModel.get. unfold VariantModel.bind at 1.
  rewrite (empty_held v A a Hc Hbuf). unfold VariantModel.bind at 1.
  rewrite (is_held v A T a Hc Hbuf HT).
  now destruct (ty_eq_dec T A).
Qed.

Lemma variant_visit_impl_held (R : Type) (vis : ty -> val -> E + R)
    (v : variant) (A : ty) (a : val) (Tail : list ty) :
  consistent v -> buffer_ v = Some (A, a) ->
  forall Head : ty,
    (forall T, In T (Head :: Tail) -> In T Types) ->
    In A (Head :: Tail) ->
    variant_visit_impl vis Head Tail v =
    match vis A a with
    | inr r => returns r v
    | inl e => throws (thrown e) v
    end.
Proof.
  intros Hc Hbuf. induction Tail as [|Head' Tail' IH]; intros Head Hmem HA;
    cbn [VariantModel.variant_visit_impl];
    unfold VariantModel.bind at 1;
    rewrite (is_held v A Head a Hc Hbuf (Hmem Head (or_introl eq_refl)));
    destruct (ty_eq_dec Head A) as [->|Hne].
  - unfold VariantModel.bind at 1. rewrite (get_held v A a Hc Hbuf).
    now destruct (vis A a).
  - destruct HA as [->|[]]. easy.
  - unfold VariantModel.bind at 1. rewrite (get_held v A a Hc Hbuf).
    now destruct (vis A a).
  - apply IH.
    + intros T HT. apply Hmem. now right.
    + destruct HA as [->|HA]; [easy | exact HA].
Qed.

Lemma visit_held (R : Type) (vis : ty -> val -> E + R) (v : variant)
    (A : ty) (a : val) :
  consistent v -> buffer_ v = Some (A, a) ->
  visit vis v =
  match vis A a with
  | inr r => returns r v
  | inl e => throws (thrown e) v
  end.
Proof.
  intros Hc Hbuf.
  assert (HA : In A Types).
  { unfold VariantModel.consistent in Hc. rewrite Hbuf in Hc.
    exact (Discriminator_member A _ Hc). }
  pose proof (fun Tail Head =>
                variant_visit_impl_held R vis v A a Tail Hc Hbuf Head) as H.
  unfold VariantModel.visit. destruct Types as [|Head Tail]; [easy|].
  apply H; auto.
Qed.

Lemma variant_visit_impl_ref_held (R : Type)
    (vis : ty -> val -> val * (E + R)) (v : variant) (A : ty) (a : val)
    (Tail : list ty) :
  consistent v -> buffer_ v = Some (A, a) ->
  forall Head : ty,
    (forall T, In T (Head :: Tail) -> In T Types) ->
    In A (Head :: Tail) ->
    variant_visit_impl_ref vis Head Tail v =
    let v' := {| buffer_ := Some (A, fst (vis A a));
                 discriminator_ := discriminator_ v;
                 events := events v |} in
    match snd (vis A a) with
    | inr r => returns r v'
    | inl e => throws (thrown e) v'
    end.
Proof.
  intros Hc Hbuf. induction Tail as [|Head' Tail' IH]; intros Head Hmem HA;
    cbn [VariantModel.variant_visit_impl_ref];
    unfold VariantModel.bind at 1;
    rewrite (is_held v A Head a Hc Hbuf (Hmem Head (or_introl eq_refl)));
    destruct (ty_eq_dec Head A) as [->|Hne].
  - unfold VariantModel.bind at 1. rewrite (get_held v A a Hc Hbuf).
    unfold VariantModel.bind, VariantModel.write_buffer. cbv zeta.
    now destruct (snd (vis A a)).
  - destruct HA as [->|[]]. easy.
  - unfold VariantModel.bind at 1. rewrite (get_held v A a Hc Hbuf).
    unfold VariantModel.bind, VariantModel.write_buffer. cbv zeta.
    now destruct (snd (vis A a)).
  - apply IH.
    + intros T HT. apply Hmem. now right.
    + destruct HA as [->|HA]; [easy | exact HA].
Qed.

(** X3. [visit] on a consistent variant that holds the alternative [A]
    with the value [a] calls the visitor once, on exactly that alternative
    and value, and returns what the visitor returns or throws what it
    throws. Through the [const&] overload (the visitor receives a
    [const T&]) the variant is left as it is; through the [&] and [&&]
    overloads (the visitor receives a [T&] or [T&&]) the held object is
    left as the visitor leaves it, a moved-from value after a move, under
    the same alternative and discriminator. *)
Theorem visit_applies_visitor_to_live_value (R : Type)
    (vis : ty -> val -> E + R) (vis_ref : ty -> val -> val * (E + R))
    (v : variant) (A : ty) (a : val) :
  consistent v -> buffer_ v = Some (A, a) ->
  visit vis v =
    match vis A a with
    | inr r => returns r v
    | inl e => throws (thrown e) v
    end /\
  visit_ref vis_ref v =
    let v' := {| buffer_ := Some (A, fst (vis_ref A a));
                 discriminator_ := discriminator_ v;
                 events := events v |} in
    match snd (vis_ref A a) with
    | inr r => returns r v'
    | inl e => throws (thrown e) v'
    end.
Proof.
  intros Hc Hbuf. split; [exact (visit_held R vis v A a Hc Hbuf)|].
  assert (HA : In A Types).
  { unfold VariantModel.consistent in Hc. rewrite Hbuf in Hc.
    exact (Discriminator_member A _ Hc). }
  pose proof (fun Tail Head =>
                variant_visit_impl_ref_held R vis_ref v A a Tail Hc Hbuf Head)
    as H.
  unfold VariantModel.visit_ref. destruct Types as [|Head Tail]; [easy|].
  apply H; auto.
Qed.

(** X4. [destroy()] followed by the destructor destroys the object a
    consistent variant holds exactly once: the second pass finds the
    discriminator 0 and only sets it again. *)
Theorem destroy_then_destructor (v : variant) :
  NoDup Types -> consistent v ->
  exists v1 v2,
    destroy v = returns tt v1 /\
    destructor v1 = returns tt v2 /\
    buffer_ v2 = None /\ discriminator_ v2 = 0 /\
    events v2 =
      events v ++ live_object_destroyed v
        ++ [discriminator_set ty val 0; discriminator_set ty val 0].
Proof.
  intros Hnd Hc. eexists. eexists. split; [exact (destroy_consistent v Hnd Hc)|].
  split.
  - unfold VariantModel.destructor. now rewrite destroy_empty_state.
  - cbn [buffer_ discriminator_ events]. repeat split.
    now rewrite <- !app_assoc.
Qed.

Lemma visit_and_assign_held (rhs this : variant) (A : ty) (a : val) :
  consistent rhs -> buffer_ rhs = Some (A, a) ->
  visit_and_assign rhs this = choice_assign lvalue A a this.
Proof.
  intros Hc Hbuf. unfold VariantModel.visit_and_assign.
  now rewrite (visit_held (ty * val) (fun T x => inr (T, x)) rhs A a Hc Hbuf).
Qed.

Lemma consistent_empty_buffer (v : variant) :
  consistent v -> buffer_ v = None -> discriminator_ v = 0.
Proof.
  unfold VariantModel.consistent. intros Hc Hbuf. now rewrite Hbuf in Hc.
Qed.

Lemma consistent_live_buffer (v : variant) (A : ty) (a : val) :
  consistent v -> buffer_ v = Some (A, a) ->
  Discriminator A = Some (discriminator_ v) /\ discriminator_ v <> 0.
Proof.
  unfold VariantModel.consistent. intros Hc Hbuf. rewrite Hbuf in Hc.
  split; [exact Hc|]. apply Discriminator_spec in Hc. lia.
Qed.

(** X5. The copy constructor, on a consistent source among whose first
    255 alternatives the live one is: the copy of an empty variant is
    empty (nothing is constructed), and the copy of a variant that holds
    [A] holds a copy of its value under the same discriminator; when the
    copy constructor of [A] throws, the exception leaves the storage
    empty. *)
Theorem copy_construction (rhs : variant) :
  NoDup Types -> consistent rhs -> discriminator_ rhs <= 255 ->
  variant_copy_ctor rhs =
  match buffer_ rhs with
  | None => returns tt fresh
  | Some (A, a) =>
      match construct lvalue A a with
      | inr a' =>
          returns tt
            {| buffer_ := Some (A, a');
               discriminator_ := discriminator_ rhs;
               events := [discriminator_set ty val 0; constructed A a';
                          discriminator_set ty val (discriminator_ rhs)] |}
      | inl e =>
          throws (thrown e)
            {| buffer_ := None; discriminator_ := 0;
               events := [discriminator_set ty val 0] |}
      end
  end.
Proof.
  intros Hnd Hc Hle. unfold VariantModel.variant_copy_ctor.
  destruct (buffer_ rhs) as [[A a]|] eqn:Hbuf.
  - destruct (consistent_live_buffer rhs A a Hc Hbuf) as [HA Hne].
    apply Nat.eqb_neq in Hne as Hne'. rewrite Hne'.
    rewrite (visit_and_assign_held rhs fresh A a Hc Hbuf).
    rewrite (choice_assign_other fresh A (discriminator_ rhs) lvalue a Hnd
               fresh_consistent HA).
    + rewrite (Nat.mod_small (discriminator_ rhs) 256) by lia. reflexivity.
    + cbn. lia.
  - now rewrite (consistent_empty_buffer rhs Hc Hbuf).
Qed.

(** X6. Copy assignment is the assignment of the source's live value:
    from an empty source it is [destroy()], from a source that holds [A]
    it is the assignment of a value of [A] through [operator=(const T&)].
    Between consistent variants it ends in a consistent variant, and when
    it returns the target has the discriminator of the source. *)
Theorem copy_assignment (this rhs : variant) :
  NoDup Types -> consistent this -> consistent rhs ->
  discriminator_ rhs <= 255 ->
  variant_copy_assign rhs this =
    match buffer_ rhs with
    | None => destroy this
    | Some (A, a) => choice_assign lvalue A a this
    end /\
  keeps_consistent (variant_copy_assign rhs this) /\
  forall v', variant_copy_assign rhs this = returns tt v' ->
             discriminator_ v' = discriminator_ rhs.
Proof.
  intros Hnd Hthis Hrhs Hle. unfold VariantModel.variant_copy_assign.
  destruct (buffer_ rhs) as [[A a]|] eqn:Hbuf.
  - destruct (consistent_live_buffer rhs A a Hrhs Hbuf) as [HA Hne].
    apply Nat.eqb_neq in Hne as Hne'. rewrite Hne'.
    rewrite (visit_and_assign_held rhs this A a Hrhs Hbuf).
    split; [reflexivity|]. split.
    + now apply (choice_assign_keeps_consistent this A (discriminator_ rhs)).
    + intros v'.
      destruct (Nat.eq_dec (discriminator_ this) (discriminator_ rhs))
        as [Hd|Hd].
      * destruct (consistent_live this A _ Hthis HA Hd) as [x Hx].
        rewrite (choice_assign_same this A _ lvalue a x HA Hd Hx). cbv zeta.
        destruct (snd (assign lvalue A x a)); [discriminate|].
        now intros [= <-].
      * rewrite (choice_assign_other this A _ lvalue a Hnd Hthis HA Hd).
        rewrite (Nat.mod_small (discriminator_ rhs) 256) by lia.
        destruct (construct lvalue A a); [discriminate|].
        now intros [= <-].
  - rewrite (consistent_empty_buffer rhs Hrhs Hbuf). cbn [Nat.eqb].
    split; [reflexivity|]. rewrite (destroy_consistent this Hnd Hthis).
    split; [reflexivity|]. now intros v' [= <-].
Qed.

Local Abbreviation print := (VariantModel.print ty_eq_dec E Types).
Local Abbreviation print_impl := (VariantModel.print_impl ty_eq_dec E Types).

Lemma print_impl_held (show : ty -> val -> string) (os : string)
    (v : variant) (A : ty) (a : val) (Tail : list ty) :
  consistent v -> buffer_ v = Some (A, a) ->
  forall Head : ty,
    (forall T, In T (Head :: Tail) -> In T Types) ->
    In A (Head :: Tail) ->
    print_impl show os Head Tail v = returns (os ++ show A a)%string v.
Proof.
  intros Hc Hbuf. induction Tail as [|Head' Tail' IH]; intros Head Hmem HA;
    cbn [VariantModel.print_impl];
    unfold VariantModel.bind at 1;
    rewrite (is_held v A Head a Hc Hbuf (Hmem Head (or_introl eq_refl)));
    destruct (ty_eq_dec Head A) as [->|Hne].
  - unfold VariantModel.bind at 1. now rewrite (get_held v A a Hc Hbuf).
  - destruct HA as [->|[]]. easy.
  - unfold VariantModel.bind at 1. now rewrite (get_held v A a Hc Hbuf).
  - apply IH.
    + intros T HT. apply Hmem. now right.
    + destruct HA as [->|HA]; [easy | exact HA].
Qed.

Lemma print_impl_empty (show : ty -> val -> string) (os : string)
    (v : variant) (Tail : list ty) :
  discriminator_ v = 0 ->
  forall Head : ty,
    (forall T, In T (Head :: Tail) -> In T Types) ->
    print_impl show os Head Tail v = returns os v.
Proof.
  intros H0. induction Tail as [|Head' Tail' IH]; intros Head Hmem;
    cbn [VariantModel.print_impl];
    unfold VariantModel.bind at 1;
    rewrite (is_empty_state Head v (Hmem Head (or_introl eq_refl)) H0).
  - reflexivity.
  - apply IH. intros T HT. apply Hmem. now right.
Qed.

(** X7. [print] of the tests writes the value a consistent variant holds
    and nothing else; on an empty variant it writes nothing and returns,
    where [visit] throws [empty_variant]. *)
Theorem print_writes_live_value (show : ty -> val -> string) (os : string)
    (v : variant) :
  Types <> [] -> consistent v ->
  print show os v =
  match buffer_ v with
  | Some (A, a) => returns (os ++ show A a)%string v
  | None => returns os v
  end.
Proof.
  intros Hne Hc.
  pose proof (fun A a Tail Head Hbuf =>
                print_impl_held show os v A a Tail Hc Hbuf Head) as Hheld.
  pose proof (fun Tail H0 Head => print_impl_empty show os v Tail H0 Head)
    as Hempty.
  destruct (buffer_ v) as [[A a]|] eqn:Hbuf.
  - assert (HA : In A Types)
      by exact (Discriminator_member A _
                  (proj1 (consistent_live_buffer v A a Hc Hbuf))).
    unfold VariantModel.print. destruct Types as [|Head Tail]; [easy|].
    apply Hheld; auto.
  - pose proof (consistent_empty_buffer v Hc Hbuf) as H0.
    unfold VariantModel.print. destruct Types as [|Head Tail]; [easy|].
    apply Hempty; auto.
Qed.

Variable size_of : ty -> nat.
Variable char_t : ty.

(** X8. The buffer of [variant_storage], [sizeof(largest_t)] bytes, is
    large enough for every alternative. *)
Theorem buffer_fits_every_alternative (T : ty) :
  In T Types -> size_of T <= VariantModel.buffer_size Types size_of char_t.
Proof.
  unfold VariantModel.buffer_size. induction Types as [|contender tail IH];
    [easy|].
  cbn [Typelist.largest_type].
  intros [<-|Hin];
    destruct (size_of (Typelist.largest_type size_of char_t tail)
              <=? size_of contender) eqn:Hle;
    try apply Nat.leb_le in Hle; try apply Nat.leb_gt in Hle;
    try specialize (IH Hin); lia.
Qed.

End Machine.

Lemma test_Types_NoDup : NoDup test_Types.
Proof.
  unfold test_Types. repeat constructor; simpl; intuition discriminate.
Defined.

(** [test_noncopyable]: [v = nc] throws and leaves [v] empty. *)
Lemma assign_throw_leaves_empty_witness :
  exists v',
    choice_assign alt_eq_dec test_construct test_assign test_Types
      lvalue alt_noncopyable 0%Z test_v
    = throws unit (thrown copied_noncopyable) v' /\
    discriminator_ v' = 0 /\ buffer_ v' = None /\
    empty test_exn v' = returns test_exn true v' /\
    is_ alt_eq_dec test_exn test_Types alt_int v'
    = returns test_exn false v' /\
    is_ alt_eq_dec test_exn test_Types alt_noncopyable v'
    = returns test_exn false v' /\
    exists v'',
      destructor alt_eq_dec test_exn test_Types v' = returns test_exn tt v'' /\
      events v'' = events v' ++ [discriminator_set alt Z 0] /\
      discriminator_ v'' = 0 /\ buffer_ v'' = None.
Proof.
  apply (assign_throw_leaves_empty alt alt_eq_dec Z test_exn test_construct
           test_assign test_Types test_v alt_int alt_noncopyable 42%Z 0%Z
           lvalue copied_noncopyable).
  - exact test_Types_NoDup.
  - reflexivity.
  - reflexivity.
  - simpl; auto.
  - discriminate.
  - reflexivity.
Defined.

(** The variant of [test_noncopyable] after the failed assignment, and
    the variant it was before. *)
Lemma empty_variant_access_witness :
  let v := {| buffer_ := None; discriminator_ := 0;
              events := events test_v
                          ++ [destroyed alt_int 42%Z;
                              discriminator_set alt Z 0] |} in
  (forall T, In T test_Types ->
     get alt_eq_dec test_exn test_Types T v
     = throws Z (empty_variant test_exn) v) /\
  (forall (R : Type) (vis : alt -> Z -> test_exn + R),
     visit alt_eq_dec test_Types vis v
     = throws R (empty_variant test_exn) v) /\
  exists w',
    destroy alt_eq_dec test_exn test_Types test_v = returns test_exn tt w' /\
    discriminator_ w' = 0 /\
    forall T, In T test_Types ->
      get alt_eq_dec test_exn test_Types T w'
      = throws Z (empty_variant test_exn) w'.
Proof.
  intros v.
  destruct (empty_variant_access alt alt_eq_dec Z test_exn test_Types v test_v
              eq_refl) as (Hget & Hvisit & Hdestroy).
  split; [exact Hget|]. split.
  - apply Hvisit. discriminate.
  - apply Hdestroy; [exact test_Types_NoDup | reflexivity].
Defined.

(** Assigning an [int] to the variant that holds an [int], and moving a
    [noncopyable] into it. *)
Lemma assign_transition_witness :
  (exists x v',
     buffer_ test_v = Some (alt_int, x) /\
     choice_assign alt_eq_dec test_construct test_assign test_Types
       lvalue alt_int 7%Z test_v
     = match snd (test_assign lvalue alt_int x 7%Z) with
       | None => returns test_exn tt v'
       | Some e => throws unit (thrown e) v'
       end /\
     discriminator_ v' = discriminator_ test_v /\
     buffer_ v' = Some (alt_int, fst (test_assign lvalue alt_int x 7%Z)) /\
     events v'
     = events test_v
         ++ [assigned alt_int (fst (test_assign lvalue alt_int x 7%Z))]) /\
  (exists v',
     choice_assign alt_eq_dec test_construct test_assign test_Types
       rvalue alt_noncopyable 0%Z test_v
     = returns test_exn tt v' /\
     discriminator_ v' = 2 /\
     buffer_ v' = Some (alt_noncopyable, 0%Z) /\
     events v'
     = events test_v ++ live_object_destroyed test_v
         ++ [discriminator_set alt Z 0; constructed alt_noncopyable 0%Z;
             discriminator_set alt Z 2]).
Proof.
  split.
  - apply (proj1 (assign_transition alt alt_eq_dec Z test_exn test_construct
             test_assign test_Types test_v alt_int 1 lvalue 7%Z
             test_Types_NoDup eq_refl eq_refl ltac:(lia))).
    reflexivity.
  - apply (proj2 (assign_transition alt alt_eq_dec Z test_exn test_construct
             test_assign test_Types test_v alt_noncopyable 2 rvalue 0%Z
             test_Types_NoDup eq_refl eq_refl ltac:(lia))).
    + discriminate.
    + reflexivity.
Defined.

(** [jc::variant<int, noncopyable>] default-constructed, and constructed
    from a moved [noncopyable]. *)
Lemma construction_sets_discriminator_witness :
  (exists v,
     variant_default alt_eq_dec test_construct test_assign
       test_default_construct test_Types
     = returns test_exn tt v /\
     discriminator_ v = 1 /\ buffer_ v = Some (alt_int, 0%Z) /\
     empty test_exn v = returns test_exn false v) /\
  (exists v,
     variant_from alt_eq_dec test_construct test_Types rvalue
       alt_noncopyable 5%Z
     = returns test_exn tt v /\
     Typelist.find_index_of (is_same alt_eq_dec) test_Types alt_noncopyable 0
     = Some (2 - 1) /\
     discriminator_ v = 2 /\ buffer_ v = Some (alt_noncopyable, 5%Z)).
Proof.
  apply (construction_sets_discriminator alt alt_eq_dec Z test_exn
           test_construct test_assign test_default_construct test_Types
           alt_int alt_noncopyable 2 rvalue 0%Z 0%Z 5%Z 5%Z);
    try reflexivity.
  lia.
Defined.

(** With 256 alternatives the discriminator of the last one, 256, does
    not fit [unsigned char]: assigning a value of it to a variant that
    holds the first alternative destroys and constructs as usual and then
    stores the discriminator 0. *)
Lemma assign_discriminator_truncated :
  Discriminator Nat.eq_dec wide_Types 255 = Some 256 /\
  consistent Nat.eq_dec wide_Types wide_v /\
  choice_assign Nat.eq_dec wide_construct wide_assign wide_Types
    lvalue 255 7%Z wide_v
  = returns Empty_set tt
      {| buffer_ := Some (255, 7%Z);
         discriminator_ := 0;
         events := events wide_v
                     ++ [destroyed 0 1%Z; discriminator_set nat Z 0;
                         constructed 255 7%Z; discriminator_set nat Z 0] |}.
Proof. repeat split; vm_compute; reflexivity. Qed.

(** With 256 alternatives a variant constructed from a value of the last
    one has the discriminator 0 and reports itself empty. *)
Lemma construction_discriminator_truncated :
  Typelist.find_index_of (is_same Nat.eq_dec) wide_Types 255 0 = Some 255 /\
  Discriminator Nat.eq_dec wide_Types 255 = Some 256 /\
  variant_from Nat.eq_dec wide_construct wide_Types lvalue 255 7%Z
  = returns Empty_set tt
      {| buffer_ := Some (255, 7%Z);
         discriminator_ := 0;
         events := [constructed 255 7%Z; discriminator_set nat Z 0] |} /\
  empty Empty_set
    {| buffer_ := Some (255, 7%Z);
       discriminator_ := 0;
       events := [constructed 255 7%Z; discriminator_set nat Z 0] |}
  = returns Empty_set true
      {| buffer_ := Some (255, 7%Z);
         discriminator_ := 0;
         events := [constructed 255 7%Z; discriminator_set nat Z 0] |}.
Proof. repeat split; vm_compute; reflexivity. Qed.

(** The variant of [test_noncopyable], which holds an [int]: copying a
    [noncopyable] in, default construction, the copy assignment of a
    [noncopyable] that throws, [destroy()], and an assignment to the
    other alternative through a reference into the held object. *)
Lemma variant_operations_keep_consistent_witness :
  keeps_consistent alt_eq_dec test_Types
    (variant_from alt_eq_dec test_construct test_Types lvalue
       alt_noncopyable 0%Z) /\
  keeps_consistent alt_eq_dec test_Types
    (variant_default alt_eq_dec test_construct test_assign
       test_default_construct test_Types) /\
  keeps_consistent alt_eq_dec test_Types
    (choice_assign_ref alt_eq_dec test_construct test_assign test_Types
       lvalue alt_noncopyable (outside 0%Z) test_v) /\
  keeps_consistent alt_eq_dec test_Types
    (destroy alt_eq_dec test_exn test_Types test_v) /\
  (discriminator_ test_v <> 2 ->
   choice_assign_ref alt_eq_dec test_construct test_assign test_Types
     lvalue alt_noncopyable (inside (fun x : Z => x)) test_v
   = @stuck alt Z test_exn unit undefined_behaviour).
Proof.
  apply (variant_operations_keep_consistent alt alt_eq_dec Z test_exn
           test_construct test_assign test_default_construct test_Types
           test_v alt_noncopyable 2 lvalue 0%Z (fun x => x));
    [exact test_Types_NoDup | reflexivity | reflexivity | lia].
Defined.

Lemma held_alternative_access_witness :
  empty test_exn test_v = returns test_exn false test_v /\
  (forall T, In T test_Types ->
     is_ alt_eq_dec test_exn test_Types T test_v
     = returns test_exn (if alt_eq_dec T alt_int then true else false)
         test_v) /\
  get alt_eq_dec test_exn test_Types alt_int test_v
  = returns test_exn 42%Z test_v /\
  (forall T, In T test_Types -> T <> alt_int ->
     get alt_eq_dec test_exn test_Types T test_v
     = @stuck alt Z test_exn Z assertion_failure).
Proof.
  apply (held_alternative_access alt alt_eq_dec Z test_exn test_Types test_v
           alt_int 42%Z); reflexivity.
Defined.

(** A visitor that reads the [int] the variant holds, and one that takes
    it and leaves 0 behind. *)
Lemma visit_applies_visitor_to_live_value_witness :
  visit alt_eq_dec test_Types
    (fun (T : alt) (x : Z) => @inr test_exn Z (x + 1)%Z) test_v
  = returns test_exn 43%Z test_v /\
  visit_ref alt_eq_dec test_Types
    (fun (T : alt) (x : Z) => (0%Z, @inr test_exn Z x)) test_v
  = returns test_exn 42%Z
      {| buffer_ := Some (alt_int, 0%Z);
         discriminator_ := 1;
         events := events test_v |}.
Proof.
  exact (visit_applies_visitor_to_live_value alt alt_eq_dec Z test_exn
           test_Types Z (fun T x => inr (x + 1)%Z)
           (fun T x => (0%Z, inr x)) test_v alt_int 42%Z
           eq_refl eq_refl).
Defined.

Lemma destroy_then_destructor_witness :
  exists v1 v2,
    destroy alt_eq_dec test_exn test_Types test_v = returns test_exn tt v1 /\
    destructor alt_eq_dec test_exn test_Types v1 = returns test_exn tt v2 /\
    buffer_ v2 = None /\ discriminator_ v2 = 0 /\
    events v2 =
      events test_v ++ live_object_destroyed test_v
        ++ [discriminator_set alt Z 0; discriminator_set alt Z 0].
Proof.
  apply (destroy_then_destructor alt alt_eq_dec Z test_exn test_Types test_v);
    [exact test_Types_NoDup | reflexivity].
Defined.

(** The copy of the variant that holds the [int] 42. *)
Lemma copy_construction_witness :
  variant_copy_ctor alt_eq_dec test_construct test_assign test_Types test_v
  = returns test_exn tt
      {| buffer_ := Some (alt_int, 42%Z);
         discriminator_ := 1;
         events := [discriminator_set alt Z 0; constructed alt_int 42%Z;
                    discriminator_set alt Z 1] |}.
Proof.
  apply (copy_construction alt alt_eq_dec Z test_exn test_construct
           test_assign test_Types test_v);
    [exact test_Types_NoDup | reflexivity | simpl; lia].
Defined.

Lemma copy_assignment_witness :
  let this := {| buffer_ := Some (alt_noncopyable, 0%Z);
                 discriminator_ := 2;
                 events := [] |} in
  variant_copy_assign alt_eq_dec test_construct test_assign test_Types
    test_v this
  = choice_assign alt_eq_dec test_construct test_assign test_Types lvalue
      alt_int 42%Z this /\
  keeps_consistent alt_eq_dec test_Types
    (variant_copy_assign alt_eq_dec test_construct test_assign test_Types
       test_v this) /\
  forall v',
    variant_copy_assign alt_eq_dec test_construct test_assign test_Types
      test_v this = returns test_exn tt v' ->
    discriminator_ v' = discriminator_ test_v.
Proof.
  intros this.
  apply (copy_assignment alt alt_eq_dec Z test_exn test_construct
           test_assign test_Types this test_v);
    [exact test_Types_NoDup | reflexivity | reflexivity | simpl; lia].
Defined.

Lemma print_writes_live_value_witness :
  print alt_eq_dec test_exn test_Types
    (fun (T : alt) (x : Z) => if Z.eqb x 42 then "42" else "?")%string
    "v = " test_v
  = returns test_exn "v = 42"%string test_v.
Proof.
  apply (print_writes_live_value alt alt_eq_dec Z test_exn test_Types
           (fun T x => if Z.eqb x 42 then "42" else "?")%string "v = "%string
           test_v);
    [discriminate | reflexivity].
Defined.

Lemma buffer_fits_every_alternative_witness :
  Typelist.size_of Typelist.t_double
  <= buffer_size [Typelist.t_int; Typelist.t_double; Typelist.t_char]
       Typelist.size_of Typelist.t_char.
Proof.
  apply (buffer_fits_every_alternative Typelist.cpp_type
           [Typelist.t_int; Typelist.t_double; Typelist.t_char]
           Typelist.size_of Typelist.t_char Typelist.t_double).
  simpl; auto.
Defined.

(** [test_variant]: [v{42}] holds an [int]; after [v.destroy()] it is
    empty. *)
Example test_variant_destroy :
  destroy alt_eq_dec test_exn test_Types test_v
  = returns test_exn tt
      {| buffer_ := None;
         discriminator_ := 0;
         events := events test_v
                     ++ [destroyed alt_int 42%Z; discriminator_set alt Z 0] |}.
Proof. reflexivity. Qed.

Example test_v_constructed :
  variant_from alt_eq_dec test_construct test_Types rvalue alt_int 42%Z
  = returns test_exn tt test_v.
Proof. reflexivity. Qed.

Example wide_v_constructed :
  variant_from Nat.eq_dec wide_construct wide_Types rvalue 0 1%Z
  = returns Empty_set tt wide_v.
Proof. reflexivity. Qed.

End VariantFacts.
